(** * PageRank estimators of [pagerank.py]: embedding and verification

    The development follows [pagerank.py] function by function:
    [crawl], [transition_model], [sample_pagerank], [iterate_pagerank] and
    [main].

    Modelling conventions.
    - A Python [dict] is a [gmap] (keys are unique, lookups are partial), a
      Python [set] of page names is a [gset string].  A [for] loop over a
      dict is a left fold over the list of its keys (or of its items).
    - Python exceptions are values of [exn]; a computation that may raise
      has type [result A].
    - Numbers.  Python computes ranks with binary64 floats.  Here every
      float is the exact rational it denotes ([Q], compared with [==]), the
      literal [0.001] is [1 # 1000], and rounding is outside the model.  All
      statements about sums and about exact values are statements about
      this exact arithmetic.  Where rounding decides, [iterate_pagerank] is
      also given in binary64 itself ([iterate_pagerank_b64], on the
      kernel's primitive floats).
    - The [while] loop of [iterate_pagerank] is bounded by a fuel argument
      that counts relaxation passes; [None] means that the fuel ran out.
    - The random source of [sample_pagerank] is an arbitrary sequence of raw
      draws, consumed one per call. *)

From Stdlib Require Import QArith Qabs Qround Lqa.
From Stdlib Require Import Floats.PrimFloat.
From stdpp Require Import gmap strings list fin_maps sorting.

Local Open Scope Q_scope.

(** ** Exceptions and the error monad *)

Inductive exn : Type :=
  | KeyError (key : string)
  | IndexError
  | ValueError
  | ZeroDivisionError
  | OSError.

Inductive result (A : Type) : Type :=
  | Ok (a : A)
  | Raise (e : exn).
Arguments Ok {A} a.
Arguments Raise {A} e.

Definition bind {A B : Type} (r : result A) (k : A → result B) : result B :=
  match r with
  | Ok a => k a
  | Raise e => Raise e
  end.

Notation "'let*' x := r 'in' k" := (bind r (λ x, k))
  (at level 10, x name, r at level 100, k at level 200).

(** A [for] loop whose body may raise: the fold stops at the first
    exception. *)
Fixpoint for_each {A S : Type} (body : S → A → result S) (s : S) (l : list A)
  : result S :=
  match l with
  | [] => Ok s
  | x :: l' => let* s' := body s x in for_each body s' l'
  end.

(** [d[k]] on a dict. *)
Definition getitem {V : Type} (d : gmap string V) (k : string) : result V :=
  match d !! k with
  | Some v => Ok v
  | None => Raise (KeyError k)
  end.

(** The keys of a dict, in iteration order. *)
Definition keys {V : Type} (d : gmap string V) : list string :=
  (map_to_list d).*1.

(** ** Numbers *)

(** The rational denoted by a Python [int] that counts something. *)
Definition Qnat (n : nat) : Q := inject_Z (Z.of_nat n).

(** The literal [0.001] of the convergence test. *)
Definition tolerance : Q := 1 # 1000.

(** [a / b] on floats and ints. *)
Definition truediv (a b : Q) : result Q :=
  if Qeq_bool b 0 then Raise ZeroDivisionError else Ok (a / b).

(** Sum of a list of rationals. *)
Fixpoint Qsum (l : list Q) : Q :=
  match l with
  | [] => 0
  | x :: l' => x + Qsum l'
  end.

(** Total mass of a distribution. *)
Definition mass (d : gmap string Q) : Q := Qsum (map_to_list d).*2.

(** ** The data model of the specification *)

(** A corpus graph: no page links to itself and every link stays inside the
    corpus. *)
Definition corpus_graph (corpus : gmap string (gset string)) : Prop :=
  ∀ page links, corpus !! page = Some links →
    (page ∉ links) ∧ (links ⊆ dom corpus).

#[global] Instance corpus_graph_dec (corpus : gmap string (gset string)) :
  Decision (corpus_graph corpus).
Proof.
  exact (map_Forall_dec
           (λ page links, (page ∉ links) ∧ (links ⊆ dom corpus)) corpus).
Defined.

(** ** The process: output and exit status *)

(** A line printed on standard output.  [RankLine page rank] stands for the
    line [f"  {page}: {rank:.4f}"]. *)
Inductive line : Type :=
  | Text (s : string)
  | RankLine (page : string) (rank : Q).

(** What reaches standard error: the message of [sys.exit(message)], or the
    traceback of an uncaught exception. *)
Inductive diagnostic : Type :=
  | Message (s : string)
  | Traceback (e : exn).

Record outcome : Type := {
  stdout : list line;
  stderr : list diagnostic;
  exit_status : Z
}.

Definition DAMPING : Q := 85 # 100.
Definition SAMPLES : Z := 10000.

(** The order [sorted] uses on page names. *)
Definition string_le (a b : string) : Prop := String.leb a b = true.

#[global] Instance string_le_dec : RelDecision string_le.
Proof. intros a b. unfold string_le. apply _. Defined.

(** [for page in sorted(ranks): print(f"  {page}: {ranks[page]:.4f}")]. *)
Definition report (ranks : gmap string Q) : list line :=
  omap (λ page, RankLine page <$> ranks !! page)
       (merge_sort string_le (keys ranks)).

(** An uncaught exception: what was printed so far, a traceback, status 1. *)
Definition crash (printed : list line) (e : exn) : outcome :=
  {| stdout := printed; stderr := [Traceback e]; exit_status := 1 |}.

(** ** [crawl] (lines 24-48) *)

(** [filename.endswith(suffix)]. *)
Definition endswith (s suffix : string) : bool :=
  let n := String.length s in
  let k := String.length suffix in
  if (k <=? n)%nat then String.eqb (String.substring (n - k) k s) suffix else false.

Section Environment.

(** The file system and the regular-expression engine are outside the
    program: [listdir] is [os.listdir], [read_file directory filename] is
    [open(os.path.join(directory, filename)).read()], and
    [findall_href contents] is [re.findall] with the pattern of line 38. *)
Variable listdir : string → result (list string).
Variable read_file : string → string → result string.
Variable findall_href : string → list string.

(** The random source: [raw k] is the k-th raw draw. *)
Variable raw : nat → N.

Definition crawl (directory : string) : result (gmap string (gset string)) :=
  let* names := listdir directory in
  (* Extract all links from HTML files *)
  let* pages :=
    for_each
      (λ (pages : gmap string (gset string)) filename,
         if negb (endswith filename ".html") then Ok pages
         else
           let* contents := read_file directory filename in
           let links := findall_href contents in
           Ok (<[filename := list_to_set links ∖ {[filename]}]> pages))
      ∅ names in
  (* Only include links to other pages in the corpus *)
  for_each
    (λ (pages : gmap string (gset string)) filename,
       let* links := getitem pages filename in
       Ok (<[filename := filter (λ link, link ∈ dom pages) links]> pages))
    pages (keys pages).

(** ** [transition_model] (lines 51-77) *)

Definition transition_model (corpus : gmap string (gset string))
    (page : string) (damping_factor : Q) : result (gmap string Q) :=
  let* links := getitem corpus page in
  let total_pages := size corpus in
  if decide (links = ∅) then
    for_each
      (λ (pd : gmap string Q) p,
         let* v := truediv 1 (Qnat total_pages) in Ok (<[p := v]> pd))
      ∅ (keys corpus)
  else
    let* probability_distribution :=
      for_each
        (λ (pd : gmap string Q) p,
           let* v := truediv (1 - damping_factor) (Qnat total_pages) in
           Ok (<[p := v]> pd))
        ∅ (keys corpus) in
    for_each
      (λ (pd : gmap string Q) link,
         let* old := getitem pd link in
         let* inc := truediv damping_factor (Qnat (size links)) in
         Ok (<[link := old + inc]> pd))
      probability_distribution (elements links).

(** ** The [random] module, as far as [sample_pagerank] uses it *)

(** [random.random()]: a 53-bit draw scaled into [0, 1). *)
Definition random (k : nat) : Q :=
  inject_Z (Z.of_N (raw k mod 2 ^ 53)) / inject_Z (2 ^ 53).

(** [random.choice(seq)]. *)
Definition choice (k : nat) (seq : list string) : result string :=
  match seq with
  | [] => Raise IndexError
  | _ =>
      match seq !! N.to_nat (raw k mod N.of_nat (length seq)) with
      | Some x => Ok x
      | None => Raise IndexError
      end
  end.

(** [itertools.accumulate(weights)]: the running sums. *)
Fixpoint accumulate_from (acc : Q) (weights : list Q) : list Q :=
  match weights with
  | [] => []
  | w :: ws => (acc + w) :: accumulate_from (acc + w) ws
  end.

Definition accumulate (weights : list Q) : list Q :=
  match weights with
  | [] => []
  | w :: ws => w :: accumulate_from w ws
  end.

(** [bisect.bisect_right(a, x, lo, hi)]; the loop runs at most [hi - lo]
    times, which is the fuel [bisect] gives it. *)
Fixpoint bisect_loop (fuel : nat) (a : list Q) (x : Q) (lo hi : nat)
  : result nat :=
  match fuel with
  | O => Ok lo
  | S fuel' =>
      if (lo <? hi)%nat then
        let mid := ((lo + hi) / 2)%nat in
        match a !! mid with
        | None => Raise IndexError
        | Some am =>
            if Qlt_le_dec x am then bisect_loop fuel' a x lo mid
            else bisect_loop fuel' a x (mid + 1)%nat hi
        end
      else Ok lo
  end.

Definition bisect (a : list Q) (x : Q) (lo hi : nat) : result nat :=
  bisect_loop (hi - lo) a x lo hi.

(** [random.choices(population, weights=weights, k=1)[0]]. *)
Definition choices (k : nat) (population : list string) (weights : list Q)
  : result string :=
  let n := length population in
  let cum_weights := accumulate weights in
  if negb (length cum_weights =? n)%nat then Raise ValueError
  else
    match last cum_weights with
    | None => Raise IndexError
    | Some total =>
        if Qle_bool total 0 then Raise ValueError
        else
          let* i := bisect cum_weights (random k * total) 0 (n - 1) in
          match population !! i with
          | Some x => Ok x
          | None => Raise IndexError
          end
    end.

(** ** [sample_pagerank] (lines 80-101) *)

(** [pagerank[page] += 1] on the visit counters. *)
Definition increment (pagerank : gmap string nat) (page : string)
  : result (gmap string nat) :=
  let* count := getitem pagerank page in
  Ok (<[page := S count]> pagerank).

(** One turn of the loop of lines 93-96; [k] is the index of the turn and
    of the raw draw it consumes. *)
Definition sample_step (corpus : gmap string (gset string))
    (damping_factor : Q) (st : gmap string nat * string) (k : nat)
  : result (gmap string nat * string) :=
  let* model := transition_model corpus st.2 damping_factor in
  let* page := choices k (keys model) (map_to_list model).*2 in
  let* pagerank := increment st.1 page in
  Ok (pagerank, page).

Definition sample_pagerank (corpus : gmap string (gset string))
    (damping_factor : Q) (n : Z) : result (gmap string Q) :=
  let pagerank : gmap string nat := (λ _, O) <$> corpus in
  let* page := choice 0 (keys corpus) in
  let* pagerank := increment pagerank page in
  let* st :=
    for_each (sample_step corpus damping_factor) (pagerank, page)
             (seq 1 (Z.to_nat (n - 1))) in
  (* Normalize the values to sum to 1 *)
  for_each
    (λ (normalized : gmap string Q) (item : string * nat),
       let* v := truediv (Qnat item.2) (inject_Z n) in
       Ok (<[item.1 := v]> normalized))
    ∅ (map_to_list st.1).

(** ** [iterate_pagerank] (lines 104-134) *)

(** Lines 121-126: the new rank of [page].  The loop over [other_page]
    reads [corpus[other_page]], so it runs over the items of [corpus]. *)
Definition new_rank_of (corpus : gmap string (gset string))
    (damping_factor : Q) (N : nat) (pagerank : gmap string Q)
    (page : string) : result Q :=
  let* total :=
    for_each
      (λ (total : Q) (item : string * gset string),
         if decide (page ∈ item.2 ∨ item.2 = ∅) then
           let* r := getitem pagerank item.1 in
           let* t :=
             truediv r (Qnat (if decide (item.2 = ∅) then N
                              else size item.2)) in
           Ok (total + t)
         else Ok total)
      0 (map_to_list corpus) in
  let* base := truediv (1 - damping_factor) (Qnat N) in
  Ok (base + damping_factor * total).

(** Lines 120-126: one relaxation pass writes every entry of
    [new_rank]. *)
Definition relaxation_pass (corpus : gmap string (gset string))
    (damping_factor : Q) (N : nat) (pagerank new_rank : gmap string Q)
  : result (gmap string Q) :=
  for_each
    (λ (new_rank : gmap string Q) page,
       let* v := new_rank_of corpus damping_factor N pagerank page in
       Ok (<[page := v]> new_rank))
    new_rank (keys corpus).

(** Lines 119 and 128-130: the convergence test. *)
Definition convergence_test (pagerank new_rank : gmap string Q)
  : result bool :=
  for_each
    (λ (converged : bool) (item : string * Q),
       let* new := getitem new_rank item.1 in
       if Qlt_le_dec tolerance (Qabs (new - item.2)) then Ok false
       else Ok converged)
    true (map_to_list pagerank).

(** Lines 118-132: the [while] loop, at most [fuel] passes. *)
Fixpoint iterate_loop (fuel : nat) (corpus : gmap string (gset string))
    (damping_factor : Q) (N : nat) (pagerank new_rank : gmap string Q)
  : option (result (gmap string Q)) :=
  match fuel with
  | O => None
  | S fuel' =>
      match relaxation_pass corpus damping_factor N pagerank new_rank with
      | Raise e => Some (Raise e)
      | Ok new_rank' =>
          match convergence_test pagerank new_rank' with
          | Raise e => Some (Raise e)
          | Ok converged =>
              (* pagerank = new_rank.copy() *)
              if converged then Some (Ok new_rank')
              else iterate_loop fuel' corpus damping_factor N
                                new_rank' new_rank'
          end
      end
  end.

Definition iterate_pagerank (fuel : nat)
    (corpus : gmap string (gset string)) (damping_factor : Q)
  : option (result (gmap string Q)) :=
  let N := size corpus in
  match
    for_each
      (λ (pagerank : gmap string Q) page,
         let* v := truediv 1 (Qnat N) in Ok (<[page := v]> pagerank))
      ∅ (keys corpus)
  with
  | Raise e => Some (Raise e)
  | Ok pagerank =>
      let new_rank : gmap string Q := (λ _, 0) <$> corpus in
      iterate_loop fuel corpus damping_factor N pagerank new_rank
  end.

(** ** [main] (lines 10-21) *)

Definition main (fuel : nat) (argv : list string) : option outcome :=
  if decide (length argv ≠ 2%nat) then
    (* sys.exit("Usage: python pagerank.py corpus") *)
    Some {| stdout := [];
            stderr := [Message "Usage: python pagerank.py corpus"];
            exit_status := 1 |}
  else
    match argv !! 1%nat with
    | None => Some (crash [] IndexError)
    | Some directory =>
        match crawl directory with
        | Raise e => Some (crash [] e)
        | Ok corpus =>
            match sample_pagerank corpus DAMPING SAMPLES with
            | Raise e => Some (crash [] e)
            | Ok ranks =>
                let printed :=
                  Text "PageRank Results from Sampling (n = 10000)"
                  :: report ranks in
                match iterate_pagerank fuel corpus DAMPING with
                | None => None
                | Some (Raise e) => Some (crash printed e)
                | Some (Ok ranks) =>
                    Some {| stdout :=
                              printed
                              ++ Text "PageRank Results from Iteration"
                              :: report ranks;
                            stderr := [];
                            exit_status := 0 |}
                end
            end
        end
    end.

End Environment.

(** ** [iterate_pagerank] (lines 104-134) in binary64

    The same function with the numbers as the code has them: IEEE 754
    binary64, rounded to nearest even, on the kernel's primitive floats.  A
    sum of floats depends on the order of its terms, so the corpus is the
    list of its items in the iteration order of the dict; the rank dicts
    are only read by key and stay [gmap]s. *)

(** The float of a Python [int] that counts something (exact below
    [2^53]). *)
Definition float_of_nat (n : nat) : float :=
  Nat.iter n (λ x, x + 1)%float 0%float.

(** [a / b] on floats; Python raises on a zero divisor. *)
Definition truediv_b64 (a b : float) : result float :=
  if (b =? 0)%float then Raise ZeroDivisionError else Ok (a / b)%float.

(** Lines 121-126. *)
Definition new_rank_of_b64 (corpus : list (string * gset string))
    (damping_factor : float) (N : nat) (pagerank : gmap string float)
    (page : string) : result float :=
  let* total :=
    for_each
      (λ (total : float) (item : string * gset string),
         if decide (page ∈ item.2 ∨ item.2 = ∅) then
           let* r := getitem pagerank item.1 in
           let* t :=
             truediv_b64 r (float_of_nat (if decide (item.2 = ∅) then N
                                          else size item.2)) in
           Ok (total + t)%float
         else Ok total)
      0%float corpus in
  let* base := truediv_b64 (1 - damping_factor)%float (float_of_nat N) in
  Ok (base + damping_factor * total)%float.

(** Lines 120-126. *)
Definition relaxation_pass_b64 (corpus : list (string * gset string))
    (damping_factor : float) (N : nat) (pagerank new_rank : gmap string float)
  : result (gmap string float) :=
  for_each
    (λ (new_rank : gmap string float) page,
       let* v := new_rank_of_b64 corpus damping_factor N pagerank page in
       Ok (<[page := v]> new_rank))
    new_rank corpus.*1.

(** Lines 119 and 128-130. *)
Definition convergence_test_b64 (pagerank new_rank : gmap string float)
  : result bool :=
  for_each
    (λ (converged : bool) (item : string * float),
       let* new := getitem new_rank item.1 in
       if (0.001 <? abs (new - item.2))%float then Ok false
       else Ok converged)
    true (map_to_list pagerank).

(** Lines 118-132, at most [fuel] passes. *)
Fixpoint iterate_loop_b64 (fuel : nat) (corpus : list (string * gset string))
    (damping_factor : float) (N : nat) (pagerank new_rank : gmap string float)
  : option (result (gmap string float)) :=
  match fuel with
  | O => None
  | S fuel' =>
      match relaxation_pass_b64 corpus damping_factor N pagerank new_rank with
      | Raise e => Some (Raise e)
      | Ok new_rank' =>
          match convergence_test_b64 pagerank new_rank' with
          | Raise e => Some (Raise e)
          | Ok converged =>
              if converged then Some (Ok new_rank')
              else iterate_loop_b64 fuel' corpus damping_factor N
                                    new_rank' new_rank'
          end
      end
  end.

Definition iterate_pagerank_b64 (fuel : nat)
    (corpus : list (string * gset string)) (damping_factor : float)
  : option (result (gmap string float)) :=
  let N := length corpus in
  match
    for_each
      (λ (pagerank : gmap string float) page,
         let* v := truediv_b64 1%float (float_of_nat N) in
         Ok (<[page := v]> pagerank))
      ∅ corpus.*1
  with
  | Raise e => Some (Raise e)
  | Ok pagerank =>
      let new_rank : gmap string float :=
        list_to_map ((λ page, (page, 0%float)) <$> corpus.*1) in
      iterate_loop_b64 fuel corpus damping_factor N pagerank new_rank
  end.

(** ** Vocabulary of the statements *)

(** The entry of [page] in a distribution; [0] where there is none. *)
Definition rank_at (d : gmap string Q) (page : string) : Q :=
  default 0 (d !! page).

(** The dict of line 114: every page at [1/N]. *)
Definition uniform (corpus : gmap string (gset string)) : gmap string Q :=
  foldl (λ pd p, <[p := 1 / Qnat (size corpus)]> pd) ∅ (keys corpus).

(** The value line 126 assigns to [new_rank[page]] when the ranks of the
    previous pass are [x]: the accumulation of lines 121-124 along the items
    of [corpus], then the damped sum. *)
Definition total_of (corpus : gmap string (gset string)) (N : nat)
    (x : string → Q) (page : string) : Q :=
  foldl
    (λ (total : Q) (item : string * gset string),
       if decide (page ∈ item.2 ∨ item.2 = ∅)
       then total
            + x item.1 / Qnat (if decide (item.2 = ∅) then N else size item.2)
       else total)
    0 (map_to_list corpus).

Definition relax (corpus : gmap string (gset string)) (d : Q)
    (x : string → Q) (page : string) : Q :=
  (1 - d) / Qnat (size corpus) + d * total_of corpus (size corpus) x page.

(** The dict [new_rank] after one relaxation pass over [pagerank]. *)
Definition relaxed (corpus : gmap string (gset string)) (d : Q)
    (pagerank new_rank : gmap string Q) : gmap string Q :=
  foldl (λ nr page, <[page := relax corpus d (rank_at pagerank) page]> nr)
        new_rank (keys corpus).

(** The share of the rank of a page with link set [links] that flows to
    [page] (line 124). *)
Definition weight (N : nat) (page : string) (links : gset string) : Q :=
  if decide (page ∈ links ∨ links = ∅)
  then 1 / Qnat (if decide (links = ∅) then N else size links)
  else 0.

(** How far two rank vectors are apart, summed over the pages of
    [corpus]. *)
Definition distance (corpus : gmap string (gset string))
    (x y : string → Q) : Q :=
  Qsum ((λ p, Qabs (y p - x p)) <$> keys corpus).

(** [a ^ m]. *)
Fixpoint Qpow (a : Q) (m : nat) : Q :=
  match m with
  | O => 1
  | S m' => a * Qpow a m'
  end.

(** The pages [sample_pagerank] visits, in order: the values the variable
    [page] takes at line 90 and then at line 95, turn after turn. *)
Fixpoint walk_from (raw : nat → N) (corpus : gmap string (gset string))
    (d : Q) (page : string) (turns : list nat) : result (list string) :=
  match turns with
  | [] => Ok []
  | k :: turns' =>
      let* model := transition_model corpus page d in
      let* next := choices raw k (keys model) (map_to_list model).*2 in
      let* rest := walk_from raw corpus d next turns' in
      Ok (next :: rest)
  end.

Definition sample_walk (raw : nat → N) (corpus : gmap string (gset string))
    (d : Q) (n : Z) : result (list string) :=
  let* page := choice raw 0 (keys corpus) in
  let* rest := walk_from raw corpus d page (seq 1 (Z.to_nat (n - 1))) in
  Ok (page :: rest).

(** How many times a walk visits [page]. *)
Definition visit_count (page : string) (walk : list string) : nat :=
  length (filter (λ q, q = page) walk).

(** The sum of the visit counters. *)
Definition count_total (counts : gmap string nat) : nat :=
  sum_list (map_to_list counts).*2.

(** What the first loop of [crawl] (lines 33-39) establishes: every key is
    the name of an HTML file and is not among its own links. *)
Definition html_pages (pages : gmap string (gset string)) : Prop :=
  ∀ filename links, pages !! filename = Some links →
    endswith filename ".html" = true ∧ (filename ∉ links).

(** ** Concrete inputs *)

(** A directory with two pages and a text file; the file system returns the
    name of a file as its contents, and the first page links to the second
    page, to itself, to the text file and to a page outside the corpus. *)
Definition demo_listdir (directory : string) : result (list string) :=
  if String.eqb directory "corpus"
  then Ok ["1.html"; "2.html"; "notes.txt"]%string
  else Raise OSError.

Definition demo_read_file (directory filename : string) : result string :=
  Ok filename.

Definition demo_findall_href (contents : string) : list string :=
  if String.eqb contents "1.html"
  then ["2.html"; "1.html"; "notes.txt"; "x.html"]%string
  else [].

Definition demo_graph : gmap string (gset string) :=
  {[ "1.html"%string := {[ "2.html"%string ]}; "2.html"%string := ∅ ]}.

(** The same directory, listed in another order and with a repetition. *)
Definition demo_listdir_shuffled (directory : string)
  : result (list string) :=
  if String.eqb directory "corpus"
  then Ok ["notes.txt"; "2.html"; "1.html"; "2.html"]%string
  else Raise OSError.

(** A directory without any HTML file. *)
Definition demo_listdir_notes (directory : string) : result (list string) :=
  Ok ["notes.txt"; "index.htm"]%string.

(** A sequence of raw draws. *)
Definition demo_raw (k : nat) : N :=
  ((N.of_nat k * 7919 + 13) * 1234567891234567)%N.

(** The corpus of the single-hub test: [{A: {B, C}, B: {}, C: {}}]. *)
Definition hub : gmap string (gset string) :=
  {[ "A"%string := {[ "B"%string; "C"%string ]};
     "B"%string := ∅;
     "C"%string := ∅ ]}.

(** A corpus whose first page links to a page that is not a key. *)
Definition leaky : gmap string (gset string) :=
  {[ "A"%string := {[ "B"%string; "Z"%string ]}; "B"%string := ∅ ]}.

(** The corpus of the two-page cycle: [{A: {B}, B: {A}}]. *)
Definition two_cycle : gmap string (gset string) :=
  {[ "A"%string := {[ "B"%string ]}; "B"%string := {[ "A"%string ]} ]}.

(** Six pages without links, in the order of the dict. *)
Definition six_unlinked : list (string * gset string) :=
  [("1.html", ∅); ("2.html", ∅); ("3.html", ∅);
   ("4.html", ∅); ("5.html", ∅); ("6.html", ∅)]%string.

(** A corpus of three pages without links. *)
Definition isolated : gmap string (gset string) :=
  {[ "A"%string := ∅; "B"%string := ∅; "C"%string := ∅ ]}.

(** * Verification *)

(** Decidable facts about concrete inputs are settled by evaluation. *)
Ltac by_computation := apply (bool_decide_unpack _); vm_compute; exact I.

(** ** Loops *)

Section ForEach.
Context {A S : Type}.

(** A loop whose body never raises on states that satisfy an invariant is
    the plain left fold, and the invariant holds at the end. *)
Lemma for_each_inv (I : S → Prop) (body : S → A → result S)
    (f : S → A → S) (l : list A) (s : S) :
  I s →
  (∀ s x, I s → x ∈ l → body s x = Ok (f s x) ∧ I (f s x)) →
  for_each body s l = Ok (foldl f s l) ∧ I (foldl f s l).
Proof.
  revert s. induction l as [|x l IH]; intros s Hs Hbody; simpl.
  - done.
  - destruct (Hbody s x Hs) as [-> Hx]; [left|]. simpl.
    apply IH; [done|]. intros s' y Hs' Hy. apply Hbody; [done|by right].
Qed.

Lemma for_each_ok (body : S → A → result S) (f : S → A → S)
    (l : list A) (s : S) :
  (∀ s x, x ∈ l → body s x = Ok (f s x)) →
  for_each body s l = Ok (foldl f s l).
Proof.
  intros Hbody.
  apply (for_each_inv (λ _, True) body f l s); [done|].
  intros s' x _ Hx. by split; [apply Hbody|].
Qed.

(** An invariant of the states carries over a loop that returns. *)
Lemma for_each_preserves (I : S → Prop) (body : S → A → result S)
    (l : list A) (s s' : S) :
  I s →
  (∀ s x s', I s → x ∈ l → body s x = Ok s' → I s') →
  for_each body s l = Ok s' → I s'.
Proof.
  revert s. induction l as [|x l IH]; intros s Hs Hbody; simpl.
  - intros [= <-]. done.
  - destruct (body s x) as [s1|e] eqn:E; simpl; [|done].
    apply IH.
    + eapply Hbody; [done|left|done].
    + intros s2 y s3 Hs2 Hy. apply Hbody; [done|by right].
Qed.
End ForEach.

(** ** Dicts *)

Lemma elem_of_keys {V : Type} (d : gmap string V) (k : string) :
  k ∈ keys d ↔ is_Some (d !! k).
Proof.
  unfold keys. rewrite list_elem_of_fmap. split.
  - intros [[k' v] [-> Hin]]. apply elem_of_map_to_list in Hin. by exists v.
  - intros [v Hv]. exists (k, v). split; [done|].
    by apply elem_of_map_to_list.
Qed.

Lemma elem_of_keys_dom {V : Type} (d : gmap string V) (k : string) :
  k ∈ keys d ↔ k ∈ dom d.
Proof. by rewrite elem_of_keys, elem_of_dom. Qed.

Lemma NoDup_keys {V : Type} (d : gmap string V) : NoDup (keys d).
Proof. apply NoDup_fst_map_to_list. Qed.

Lemma length_keys {V : Type} (d : gmap string V) : length (keys d) = size d.
Proof. unfold keys. by rewrite length_fmap, length_map_to_list. Qed.

Lemma getitem_Some {V : Type} (d : gmap string V) (k : string) (v : V) :
  d !! k = Some v → getitem d k = Ok v.
Proof. unfold getitem. by intros ->. Qed.

Lemma getitem_None {V : Type} (d : gmap string V) (k : string) :
  d !! k = None → getitem d k = Raise (KeyError k).
Proof. unfold getitem. by intros ->. Qed.

(** A loop of assignments [d[k] = v k] over a list of keys. *)
Lemma lookup_foldl_insert {V : Type} (v : string → V) (ks : list string)
    (d : gmap string V) (p : string) :
  foldl (λ d k, <[k := v k]> d) d ks !! p
  = if decide (p ∈ ks) then Some (v p) else d !! p.
Proof.
  revert d. induction ks as [|k ks IH]; intros d.
  - destruct (decide (p ∈ [])) as [H|]; [by apply elem_of_nil in H|done].
  - cbn [foldl]. rewrite IH. destruct (decide (p = k)) as [->|Hne].
    + rewrite lookup_insert_eq.
      repeat case_decide; try done; exfalso; set_solver.
    + rewrite lookup_insert_ne by done.
      repeat case_decide; try done; exfalso; set_solver.
Qed.

Lemma dom_foldl_insert {V : Type} (v : string → V) (ks : list string)
    (d : gmap string V) :
  dom (foldl (λ d k, <[k := v k]> d) d ks) = list_to_set ks ∪ dom d.
Proof.
  apply set_eq. intros p.
  rewrite elem_of_dom, lookup_foldl_insert, elem_of_union,
    elem_of_list_to_set, elem_of_dom.
  case_decide; naive_solver.
Qed.

(** ** Arithmetic *)

Lemma Qnat_S (n : nat) : Qnat (S n) == Qnat n + 1.
Proof.
  unfold Qnat. rewrite Nat2Z.inj_succ, <- Z.add_1_r, inject_Z_plus. reflexivity.
Qed.

Lemma Qnat_nonneg (n : nat) : 0 <= Qnat n.
Proof.
  unfold Qnat. change 0 with (inject_Z 0). rewrite <- Zle_Qle. lia.
Qed.

Lemma Qnat_pos (n : nat) : n ≠ O → 0 < Qnat n.
Proof.
  destruct n as [|n]; [done|]. intros _. rewrite Qnat_S.
  pose proof (Qnat_nonneg n). lra.
Qed.

Lemma Qnat_le (n m : nat) : (n <= m)%nat → Qnat n <= Qnat m.
Proof.
  intros H. unfold Qnat. rewrite <- Zle_Qle. lia.
Qed.

Lemma truediv_nonzero (a b : Q) : ¬ b == 0 → truediv a b = Ok (a / b).
Proof.
  intros Hb. unfold truediv.
  destruct (Qeq_bool b 0) eqn:E; [|done].
  by apply Qeq_bool_iff in E.
Qed.

Lemma truediv_zero (a b : Q) : b == 0 → truediv a b = Raise ZeroDivisionError.
Proof.
  intros Hb. unfold truediv. apply Qeq_bool_iff in Hb. by rewrite Hb.
Qed.

Lemma truediv_Qnat (a : Q) (n : nat) :
  n ≠ O → truediv a (Qnat n) = Ok (a / Qnat n).
Proof.
  intros Hn. apply truediv_nonzero. pose proof (Qnat_pos n Hn). lra.
Qed.

(** ** Sums *)

Ltac sum_cons := rewrite ?fmap_nil, ?fmap_cons; cbn [Qsum].

Section Sums.
Context {A : Type}.
Implicit Types (f g : A → Q) (l : list A).

Lemma Qsum_ext f g l :
  (∀ x, x ∈ l → f x == g x) → Qsum (f <$> l) == Qsum (g <$> l).
Proof.
  induction l as [|x l IH]; intros H; sum_cons; [reflexivity|].
  rewrite (H x) by left. rewrite IH; [reflexivity|].
  intros y Hy. apply H. by right.
Qed.

Lemma Qsum_le f g l :
  (∀ x, x ∈ l → f x <= g x) → Qsum (f <$> l) <= Qsum (g <$> l).
Proof.
  induction l as [|x l IH]; intros H; sum_cons; [lra|].
  assert (f x <= g x) by (apply H; left).
  assert (Qsum (f <$> l) <= Qsum (g <$> l)).
  { apply IH. intros y Hy. apply H. by right. }
  lra.
Qed.

Lemma Qsum_nonneg f l : (∀ x, x ∈ l → 0 <= f x) → 0 <= Qsum (f <$> l).
Proof.
  induction l as [|x l IH]; intros H; sum_cons; [lra|].
  assert (0 <= f x) by (apply H; left).
  assert (0 <= Qsum (f <$> l)).
  { apply IH. intros y Hy. apply H. by right. }
  lra.
Qed.

Lemma Qsum_plus f g l :
  Qsum ((λ x, f x + g x) <$> l) == Qsum (f <$> l) + Qsum (g <$> l).
Proof. induction l as [|x l IH]; sum_cons; [lra|]. rewrite IH. lra. Qed.

Lemma Qsum_scale (c : Q) f l :
  Qsum ((λ x, c * f x) <$> l) == c * Qsum (f <$> l).
Proof. induction l as [|x l IH]; sum_cons; [lra|]. rewrite IH. ring. Qed.

Lemma Qsum_const (c : Q) l :
  Qsum ((λ _, c) <$> l) == Qnat (length l) * c.
Proof.
  induction l as [|x l IH]; simpl length; [simpl; reflexivity|].
  rewrite Qnat_S. sum_cons. rewrite IH. ring.
Qed.

Lemma Qabs_Qsum f l :
  Qabs (Qsum (f <$> l)) <= Qsum ((λ x, Qabs (f x)) <$> l).
Proof.
  induction l as [|x l IH]; sum_cons; [apply Qle_refl|].
  eapply Qle_trans; [apply Qabs_triangle|]. lra.
Qed.

(** The sum of an indicator counts the elements it selects. *)
Lemma Qsum_indicator (P : A → Prop) `{∀ x, Decision (P x)} (c : Q) l :
  Qsum ((λ x, if decide (P x) then c else 0) <$> l)
  == Qnat (length (filter P l)) * c.
Proof.
  induction l as [|x l IH]; [simpl; reflexivity|].
  rewrite filter_cons. sum_cons. rewrite IH.
  destruct (decide (P x)); [|lra].
  cbn [length]. rewrite Qnat_S. ring.
Qed.

(** The accumulating loop [total += f x] computes the sum. *)
Lemma foldl_Qsum (P : A → Prop) `{∀ x, Decision (P x)} f l (a : Q) :
  foldl (λ total x, if decide (P x) then total + f x else total) a l
  == a + Qsum ((λ x, if decide (P x) then f x else 0) <$> l).
Proof.
  revert a. induction l as [|x l IH]; intros a; sum_cons; cbn [foldl]; [lra|].
  rewrite IH. destruct (decide (P x)); lra.
Qed.
End Sums.

Lemma Qsum_perm (l k : list Q) : l ≡ₚ k → Qsum l == Qsum k.
Proof.
  induction 1 as [|x l k _ IH|x y l|l k m _ IH1 _ IH2]; simpl.
  - reflexivity.
  - rewrite IH. reflexivity.
  - ring.
  - by rewrite IH1.
Qed.

Lemma Qsum_swap {A B : Type} (f : A → B → Q) (l : list A) (k : list B) :
  Qsum ((λ x, Qsum (f x <$> k)) <$> l)
  == Qsum ((λ y, Qsum ((λ x, f x y) <$> l)) <$> k).
Proof.
  induction l as [|x l IH]; sum_cons.
  - rewrite (Qsum_const 0 k). ring.
  - rewrite IH, <- Qsum_plus. reflexivity.
Qed.

Lemma Qdiv_nonneg (a b : Q) : 0 <= a → 0 < b → 0 <= a / b.
Proof.
  intros Ha Hb. apply Qle_shift_div_l; [done|]. lra.
Qed.

Lemma Qmult_le_l_nonneg (c a b : Q) : 0 <= c → a <= b → c * a <= c * b.
Proof. intros Hc Hab. nra. Qed.

(** ** Distributions *)

Lemma rank_at_Some (d : gmap string Q) (k : string) (v : Q) :
  d !! k = Some v → rank_at d k = v.
Proof. unfold rank_at. by intros ->. Qed.

Lemma getitem_rank_at (d : gmap string Q) (k : string) :
  k ∈ dom d → getitem d k = Ok (rank_at d k).
Proof.
  intros [v Hv]%elem_of_dom. rewrite (rank_at_Some d k v Hv).
  by apply getitem_Some.
Qed.

Lemma values_keys (d : gmap string Q) :
  (map_to_list d).*2 = rank_at d <$> keys d.
Proof.
  unfold keys. rewrite <- list_fmap_compose. apply list_fmap_ext.
  intros i [k v] Hi. simpl.
  apply list_elem_of_lookup_2, elem_of_map_to_list in Hi.
  by rewrite (rank_at_Some d k v Hi).
Qed.

Lemma keys_perm {V W : Type} (d : gmap string V) (d' : gmap string W) :
  dom d = dom d' → keys d ≡ₚ keys d'.
Proof.
  intros Hdom. apply NoDup_Permutation; [apply NoDup_keys..|].
  intros k. by rewrite !elem_of_keys_dom, Hdom.
Qed.

(** The mass of a distribution over the pages of [corpus] is the sum of its
    entries along the keys of [corpus]. *)
Lemma mass_keys {V : Type} (d : gmap string Q) (corpus : gmap string V) :
  dom d = dom corpus → mass d == Qsum (rank_at d <$> keys corpus).
Proof.
  intros Hdom. unfold mass. rewrite values_keys.
  apply Qsum_perm, fmap_Permutation, keys_perm, Hdom.
Qed.

(** How many keys of a list without duplicates fall in a set. *)
Lemma length_filter_subseteq (X : gset string) (ks : list string) :
  NoDup ks → (∀ k, k ∈ X → k ∈ ks) →
  length (filter (λ k, k ∈ X) ks) = size X.
Proof.
  intros Hnd Hsub. unfold size, set_size. simpl.
  apply Permutation_length, NoDup_Permutation.
  - by apply NoDup_filter.
  - apply NoDup_elements.
  - intros k. rewrite list_elem_of_filter, elem_of_elements. naive_solver.
Qed.

Lemma length_filter_le (X : gset string) (ks : list string) :
  NoDup ks → (length (filter (λ k, k ∈ X) ks) <= size X)%nat.
Proof.
  intros Hnd. unfold size, set_size. simpl.
  apply submseteq_length, NoDup_submseteq; [by apply NoDup_filter|].
  intros k. rewrite list_elem_of_filter, elem_of_elements. naive_solver.
Qed.

(** A loop of updates [d[k] += inc] over distinct keys. *)
Lemma lookup_foldl_add (inc : Q) (l : list string) (d : gmap string Q)
    (p : string) :
  NoDup l →
  foldl (λ d k, <[k := rank_at d k + inc]> d) d l !! p
  = if decide (p ∈ l) then Some (rank_at d p + inc) else d !! p.
Proof.
  revert d. induction l as [|k l IH]; intros d Hnd.
  - destruct (decide (p ∈ [])) as [H|]; [by apply elem_of_nil in H|done].
  - apply NoDup_cons in Hnd as [Hk Hnd]. cbn [foldl]. rewrite IH by done.
    destruct (decide (p = k)) as [->|Hne].
    + rewrite decide_False by done. rewrite lookup_insert_eq.
      rewrite decide_True by left. done.
    + unfold rank_at at 1. rewrite lookup_insert_ne by done.
      destruct (decide (p ∈ l)) as [Hin|Hnin].
      * rewrite decide_True by (by right). done.
      * rewrite decide_False; [done|].
        intros [?|?]%elem_of_cons; done.
Qed.

(** ** [transition_model] *)

Lemma corpus_size_nonzero {V : Type} (corpus : gmap string V) (page : string) :
  is_Some (corpus !! page) → size corpus ≠ O.
Proof.
  intros [v Hv] Hsize. apply map_size_empty_iff in Hsize.
  rewrite Hsize in Hv. by rewrite lookup_empty in Hv.
Qed.

Lemma links_size_nonzero (links : gset string) : links ≠ ∅ → size links ≠ O.
Proof. intros Hne Hsize. by apply size_empty_iff, leibniz_equiv in Hsize. Qed.

(** The loop of lines 66-67 and of lines 71-72: every page gets [v]. *)
Lemma fill_loop {V : Type} (corpus : gmap string V) (a : Q) :
  for_each
    (λ (pd : gmap string Q) p,
       let* v := truediv a (Qnat (size corpus)) in Ok (<[p := v]> pd))
    ∅ (keys corpus)
  = Ok (foldl (λ pd p, <[p := a / Qnat (size corpus)]> pd) ∅ (keys corpus)).
Proof.
  apply for_each_ok. intros pd p Hp%elem_of_keys.
  by rewrite truediv_Qnat by (by eapply corpus_size_nonzero).
Qed.

Lemma lookup_fill {V : Type} (corpus : gmap string V) (v : Q) (p : string) :
  foldl (λ pd p, <[p := v]> pd) (∅ : gmap string Q) (keys corpus) !! p
  = if decide (p ∈ dom corpus) then Some v else None.
Proof.
  rewrite (lookup_foldl_insert (λ _, v)), lookup_empty.
  destruct (decide (p ∈ keys corpus)) as [H|H];
    rewrite elem_of_keys_dom in H;
    [by rewrite decide_True|by rewrite decide_False].
Qed.

Lemma dom_fill {V : Type} (corpus : gmap string V) (v : Q) :
  dom (foldl (λ pd p, <[p := v]> pd) (∅ : gmap string Q) (keys corpus))
  = dom corpus.
Proof.
  apply set_eq. intros p. rewrite elem_of_dom, lookup_fill.
  case_decide; [by split|]. split; [by intros [? ?]|done].
Qed.

(** The branch of a dangling page. *)
Lemma transition_model_dangling (corpus : gmap string (gset string))
    (page : string) (d : Q) :
  corpus !! page = Some ∅ →
  transition_model corpus page d
  = Ok (foldl (λ pd p, <[p := 1 / Qnat (size corpus)]> pd) ∅ (keys corpus)).
Proof.
  intros Hpage. unfold transition_model.
  rewrite (getitem_Some _ _ _ Hpage). simpl.
  apply fill_loop.
Qed.

(** The branch of a page with links inside the corpus. *)
Lemma transition_model_linked (corpus : gmap string (gset string))
    (page : string) (links : gset string) (d : Q) :
  corpus !! page = Some links → links ≠ ∅ → links ⊆ dom corpus →
  transition_model corpus page d
  = Ok (foldl
          (λ pd link, <[link := rank_at pd link + d / Qnat (size links)]> pd)
          (foldl (λ pd p, <[p := (1 - d) / Qnat (size corpus)]> pd)
                 ∅ (keys corpus))
          (elements links)).
Proof.
  intros Hpage Hne Hsub. unfold transition_model.
  rewrite (getitem_Some _ _ _ Hpage). simpl.
  rewrite decide_False by done.
  rewrite fill_loop. simpl.
  apply (for_each_inv (λ pd, dom pd = dom corpus)); [apply dom_fill|].
  intros pd link Hdom Hlink. apply elem_of_elements in Hlink.
  assert (link ∈ dom pd) as Hin by (rewrite Hdom; by apply Hsub).
  rewrite getitem_rank_at by done. simpl.
  rewrite truediv_Qnat by (by apply links_size_nonzero). simpl.
  split; [done|]. rewrite dom_insert_L, Hdom. set_solver.
Qed.

Lemma lookup_transition_linked (corpus : gmap string (gset string))
    (links : gset string) (base inc : Q) (p : string) :
  foldl (λ pd link, <[link := rank_at pd link + inc]> pd)
        (foldl (λ pd p, <[p := base]> pd) ∅ (keys corpus))
        (elements links) !! p
  = if decide (p ∈ dom corpus)
    then Some (if decide (p ∈ links) then base + inc else base)
    else if decide (p ∈ links) then Some (0 + inc) else None.
Proof.
  rewrite lookup_foldl_add by apply NoDup_elements.
  unfold rank_at. rewrite lookup_fill.
  destruct (decide (p ∈ elements links)) as [H|H];
    rewrite elem_of_elements in H;
    destruct (decide (p ∈ links)); try done;
    by destruct (decide (p ∈ dom corpus)).
Qed.

(** C3, as the code has it: a page without an entry in the graph makes
    line 61 raise [KeyError]. *)
Theorem transition_model_missing_page (corpus : gmap string (gset string))
    (page : string) (d : Q) :
  page ∉ dom corpus → transition_model corpus page d = Raise (KeyError page).
Proof.
  intros Hpage. apply not_elem_of_dom in Hpage.
  unfold transition_model. by rewrite (getitem_None _ _ Hpage).
Qed.

Lemma unit_mass (a b d : Q) :
  ¬ a == 0 → ¬ b == 0 → a * ((1 - d) / a) + b * (d / b) == 1.
Proof. intros Ha Hb. field. by split. Qed.

(** What [transition_model] returns for a page whose links stay inside the
    corpus. *)
Lemma transition_model_spec (corpus : gmap string (gset string))
    (page : string) (links : gset string) (d : Q) :
  links ⊆ dom corpus →
  corpus !! page = Some links →
  0 <= d <= 1 →
  ∃ pd : gmap string Q,
    transition_model corpus page d = Ok pd
    ∧ dom pd = dom corpus
    ∧ (∀ p, p ∈ dom corpus →
         ∃ v, pd !! p = Some v
              ∧ 0 <= v
              ∧ v == (if decide (links = ∅) then 1 / Qnat (size corpus)
                      else (1 - d) / Qnat (size corpus)
                           + (if decide (p ∈ links)
                              then d / Qnat (size links) else 0)))
    ∧ mass pd == 1.
Proof.
  intros Hsub Hpage Hd.
  assert (size corpus ≠ O) as HN by (by eapply corpus_size_nonzero).
  pose proof (Qnat_pos _ HN) as HNpos.
  destruct (decide (links = ∅)) as [->|Hne].
  - (* dangling page *)
    eexists. split; [by apply transition_model_dangling|].
    split; [apply dom_fill|]. split.
    + intros p Hp. exists (1 / Qnat (size corpus)).
      rewrite lookup_fill, decide_True by done.
      split; [done|]. split; [|reflexivity].
      apply Qdiv_nonneg; [lra|done].
    + rewrite (mass_keys _ corpus) by apply dom_fill.
      rewrite (Qsum_ext _ (λ _, 1 / Qnat (size corpus))).
      * rewrite Qsum_const, length_keys. field. lra.
      * intros p Hp%elem_of_keys_dom.
        erewrite rank_at_Some; [reflexivity|].
        by rewrite lookup_fill, decide_True.
  - (* page with links *)
    pose proof (links_size_nonzero links Hne) as HL.
    pose proof (Qnat_pos _ HL) as HLpos.
    set (base := (1 - d) / Qnat (size corpus)).
    set (inc := d / Qnat (size links)).
    assert (0 <= base) by (apply Qdiv_nonneg; [lra|done]).
    assert (0 <= inc) by (apply Qdiv_nonneg; [lra|done]).
    eexists. split; [by apply transition_model_linked|].
    assert (∀ p, p ∈ dom corpus →
              foldl (λ pd link, <[link := rank_at pd link + inc]> pd)
                (foldl (λ pd p, <[p := base]> pd) ∅ (keys corpus))
                (elements links) !! p
              = Some (if decide (p ∈ links) then base + inc else base))
      as Hlookup.
    { intros p Hp. by rewrite lookup_transition_linked, decide_True. }
    assert (dom (foldl (λ pd link, <[link := rank_at pd link + inc]> pd)
                   (foldl (λ pd p, <[p := base]> pd) ∅ (keys corpus))
                   (elements links)) = dom corpus) as Hdom.
    { apply set_eq. intros p. rewrite elem_of_dom, lookup_transition_linked.
      destruct (decide (p ∈ dom corpus)) as [Hp|Hp]; [by split|].
      rewrite decide_False; [by split; [intros [? ?]|]|].
      intros Hl. by apply Hp, Hsub. }
    split; [done|]. split.
    + intros p Hp. eexists. split; [by apply Hlookup|].
      destruct (decide (p ∈ links)); split; lra.
    + rewrite (mass_keys _ corpus) by done.
      rewrite (Qsum_ext _
                 (λ p, base + (if decide (p ∈ links) then inc else 0))).
      * rewrite Qsum_plus, Qsum_const, (Qsum_indicator (λ p, p ∈ links)).
        rewrite length_keys, length_filter_subseteq.
        -- apply unit_mass; lra.
        -- apply NoDup_keys.
        -- intros k Hk. by apply elem_of_keys_dom, Hsub.
      * intros p Hp%elem_of_keys_dom.
        fold base inc. unfold rank_at at 1. rewrite (Hlookup p Hp). simpl.
        destruct (decide (p ∈ links)); lra.
Qed.

(** C1: on a corpus graph, for a page of the graph and a damping factor in
    [0,1], [transition_model] returns a distribution over the pages of the
    corpus: [1/N] everywhere when the page has no links; otherwise
    [(1 - damping)/N] everywhere plus [damping/|links|] on the linked pages;
    every entry is non-negative and the entries sum to 1. *)
Theorem transition_model_distribution (corpus : gmap string (gset string))
    (page : string) (links : gset string) (d : Q) :
  corpus_graph corpus →
  corpus !! page = Some links →
  0 <= d <= 1 →
  ∃ pd : gmap string Q,
    transition_model corpus page d = Ok pd
    ∧ dom pd = dom corpus
    ∧ (∀ p, p ∈ dom corpus →
         ∃ v, pd !! p = Some v
              ∧ 0 <= v
              ∧ v == (if decide (links = ∅) then 1 / Qnat (size corpus)
                      else (1 - d) / Qnat (size corpus)
                           + (if decide (p ∈ links)
                              then d / Qnat (size links) else 0)))
    ∧ mass pd == 1.
Proof.
  intros Hgraph Hpage Hd.
  destruct (Hgraph page links Hpage) as [_ Hsub].
  by apply transition_model_spec.
Qed.

(** ** [crawl] *)

Section Crawl.
Variable listdir : string → result (list string).
Variable read_file : string → string → result string.
Variable findall_href : string → list string.

Lemma crawl_extract_loop (directory : string) (names : list string)
    (pages : gmap string (gset string)) :
  for_each
    (λ (pages : gmap string (gset string)) filename,
       if negb (endswith filename ".html") then Ok pages
       else
         let* contents := read_file directory filename in
         let links := findall_href contents in
         Ok (<[filename := list_to_set links ∖ {[filename]}]> pages))
    ∅ names = Ok pages →
  html_pages pages.
Proof.
  apply for_each_preserves.
  - intros filename links Hl. by rewrite lookup_empty in Hl.
  - intros acc filename acc' Hacc _.
    destruct (endswith filename ".html") eqn:Hhtml; simpl.
    + destruct (read_file directory filename) as [contents|e]; simpl;
        [|done].
      intros [= <-] k links.
      destruct (decide (k = filename)) as [->|Hne].
      * rewrite lookup_insert_eq. intros [= <-].
        split; [done|]. set_solver.
      * rewrite lookup_insert_ne by done. apply Hacc.
    + by intros [= <-].
Qed.

(** The second loop of [crawl] (lines 42-46) keeps, in every link set, the
    links that are pages. *)
Lemma crawl_filter_loop (D : gset string) (l : list string)
    (pages : gmap string (gset string)) :
  NoDup l → dom pages = D → (∀ k, k ∈ l → k ∈ D) →
  ∃ pages' : gmap string (gset string),
    for_each
      (λ (pages : gmap string (gset string)) filename,
         let* links := getitem pages filename in
         Ok (<[filename := filter (λ link, link ∈ dom pages) links]> pages))
      pages l = Ok pages'
    ∧ ∀ p, pages' !! p
           = if decide (p ∈ l)
             then filter (λ link, link ∈ D) <$> pages !! p
             else pages !! p.
Proof.
  revert pages. induction l as [|k l IH]; intros pages Hnd Hdom Hl.
  - exists pages. split; [done|]. intros p.
    destruct (decide (p ∈ [])) as [H|]; [by apply elem_of_nil in H|done].
  - apply NoDup_cons in Hnd as [Hk Hnd].
    assert (k ∈ dom pages) as [links Hlinks]%elem_of_dom.
    { rewrite Hdom. apply Hl. left. }
    cbn [for_each]. rewrite (getitem_Some _ _ _ Hlinks). cbn [bind].
    destruct (IH (<[k := filter (λ link, link ∈ dom pages) links]> pages))
      as (pages' & -> & Hpages'); [done| |by intros; apply Hl; right|].
    { rewrite dom_insert_L, <- Hdom.
      assert (k ∈ dom pages) by (apply elem_of_dom; eauto). set_solver. }
    exists pages'. split; [done|]. intros p. rewrite Hpages'.
    destruct (decide (p = k)) as [->|Hne].
    + rewrite decide_False by done. rewrite decide_True by left.
      by rewrite lookup_insert_eq, Hlinks, Hdom.
    + rewrite lookup_insert_ne by done.
      destruct (decide (p ∈ l)) as [Hin|Hnin].
      * by rewrite decide_True by (by right).
      * rewrite decide_False; [done|].
        intros [?|?]%elem_of_cons; done.
Qed.

(** The graph [crawl] returns: the pages of the first loop, each with the
    links that are pages. *)
Lemma crawl_returns (directory : string) (g : gmap string (gset string)) :
  crawl listdir read_file findall_href directory = Ok g →
  ∃ pages : gmap string (gset string),
    html_pages pages
    ∧ g = (λ links, filter (λ link, link ∈ dom pages) links) <$> pages.
Proof.
  unfold crawl. destruct (listdir directory) as [names|e]; simpl; [|done].
  match goal with
  | |- context [bind ?loop _] => destruct loop as [pages|e] eqn:Hloop
  end; simpl; [|done].
  apply crawl_extract_loop in Hloop.
  destruct (crawl_filter_loop (dom pages) (keys pages) pages)
    as (pages' & -> & Hpages');
    [apply NoDup_keys|done|by intros k ?%elem_of_keys_dom|].
  intros [= <-]. exists pages. split; [done|].
  apply map_eq. intros p. rewrite Hpages', lookup_fmap.
  destruct (decide (p ∈ keys pages)) as [Hin|Hnin]; [done|].
  rewrite elem_of_keys in Hnin. apply eq_None_not_Some in Hnin.
  by rewrite Hnin.
Qed.

(** C9: in the graph [crawl] returns, no page is among its own links and
    every link of every page is a key of the graph. *)
Theorem crawl_links_inside (directory : string)
    (g : gmap string (gset string)) :
  crawl listdir read_file findall_href directory = Ok g →
  ∀ page links, g !! page = Some links →
    (page ∉ links) ∧ ∀ link, link ∈ links → link ∈ dom g.
Proof.
  intros (pages & Hhtml & ->)%crawl_returns page links.
  rewrite dom_fmap_L, lookup_fmap.
  destruct (pages !! page) as [links0|] eqn:Hpage; simpl; [|done].
  intros [= <-]. destruct (Hhtml page links0 Hpage) as [_ Hself].
  split.
  - rewrite elem_of_filter. naive_solver.
  - intros link. rewrite elem_of_filter. naive_solver.
Qed.

(** C10: every key of the graph [crawl] returns ends in [".html"], and a
    name without that suffix is neither a key nor a link of any page. *)
Theorem crawl_only_html (directory : string)
    (g : gmap string (gset string)) :
  crawl listdir read_file findall_href directory = Ok g →
  (∀ page, page ∈ dom g → endswith page ".html" = true)
  ∧ (∀ name, endswith name ".html" = false →
       (name ∉ dom g)
       ∧ ∀ page links, g !! page = Some links → name ∉ links).
Proof.
  intros (pages & Hhtml & ->)%crawl_returns.
  assert (∀ page, page ∈ dom pages → endswith page ".html" = true) as Hkeys.
  { intros page [links Hl]%elem_of_dom. by destruct (Hhtml page links Hl). }
  rewrite dom_fmap_L. split; [done|].
  intros name Hname.
  assert (name ∉ dom pages) as Hout.
  { intros Hin%Hkeys. congruence. }
  split; [done|]. intros page links. rewrite lookup_fmap.
  destruct (pages !! page) as [links0|]; simpl; [|done].
  intros [= <-]. rewrite elem_of_filter. naive_solver.
Qed.
End Crawl.

Lemma crawl_links_inside_witness :
  crawl demo_listdir demo_read_file demo_findall_href "corpus" = Ok demo_graph
  ∧ demo_graph !! "1.html"%string = Some {[ "2.html"%string ]}
  ∧ ("1.html"%string ∉ ({[ "2.html"%string ]} : gset string))
  ∧ ∀ link, link ∈ ({[ "2.html"%string ]} : gset string) →
            link ∈ dom demo_graph.
Proof.
  assert (crawl demo_listdir demo_read_file demo_findall_href "corpus"
          = Ok demo_graph) as Hcrawl by (vm_compute; reflexivity).
  assert (demo_graph !! "1.html"%string = Some {[ "2.html"%string ]})
    as Hpage by (vm_compute; reflexivity).
  split; [exact Hcrawl|]. split; [exact Hpage|].
  exact (crawl_links_inside demo_listdir demo_read_file demo_findall_href
           "corpus" demo_graph Hcrawl "1.html"%string _ Hpage).
Defined.

Lemma crawl_only_html_witness :
  crawl demo_listdir demo_read_file demo_findall_href "corpus" = Ok demo_graph
  ∧ (∀ page, page ∈ dom demo_graph → endswith page ".html" = true)
  ∧ (∀ name, endswith name ".html" = false →
       (name ∉ dom demo_graph)
       ∧ ∀ page links, demo_graph !! page = Some links → name ∉ links).
Proof.
  assert (crawl demo_listdir demo_read_file demo_findall_href "corpus"
          = Ok demo_graph) as Hcrawl by (vm_compute; reflexivity).
  split; [exact Hcrawl|].
  exact (crawl_only_html demo_listdir demo_read_file demo_findall_href
           "corpus" demo_graph Hcrawl).
Defined.

(** ** [iterate_pagerank]: the code and its arithmetic *)

Section Relaxation.
Variable corpus : gmap string (gset string).
Variable d : Q.

Lemma share_nonzero (links : gset string) :
  size corpus ≠ O →
  (if decide (links = ∅) then size corpus else size links) ≠ O.
Proof.
  intros HN. destruct (decide (links = ∅)); [done|].
  by apply links_size_nonzero.
Qed.

(** Lines 121-126 never raise when the corpus has a page and [pagerank]
    has an entry for every page. *)
Lemma new_rank_of_ok (pagerank : gmap string Q) (page : string) :
  size corpus ≠ O →
  dom corpus ⊆ dom pagerank →
  new_rank_of corpus d (size corpus) pagerank page
  = Ok (relax corpus d (rank_at pagerank) page).
Proof.
  intros HN Hdom. unfold new_rank_of, relax, total_of.
  erewrite for_each_ok.
  - simpl. by rewrite truediv_Qnat.
  - intros total [q links] Hitem. simpl.
    destruct (decide (page ∈ links ∨ links = ∅)); [|done].
    apply elem_of_map_to_list in Hitem.
    rewrite getitem_rank_at.
    + simpl. by rewrite truediv_Qnat by (by apply share_nonzero).
    + apply Hdom, elem_of_dom. eauto.
Qed.

(** Lines 120-126: a pass never raises and leaves [relaxed] in
    [new_rank]. *)
Lemma relaxation_pass_ok (pagerank new_rank : gmap string Q) :
  dom corpus ⊆ dom pagerank →
  relaxation_pass corpus d (size corpus) pagerank new_rank
  = Ok (relaxed corpus d pagerank new_rank).
Proof.
  intros Hdom. unfold relaxation_pass, relaxed.
  apply for_each_ok. intros nr page Hpage%elem_of_keys.
  rewrite new_rank_of_ok; [done| |done].
  by eapply corpus_size_nonzero.
Qed.

Lemma lookup_relaxed (pagerank new_rank : gmap string Q) (p : string) :
  relaxed corpus d pagerank new_rank !! p
  = if decide (p ∈ dom corpus)
    then Some (relax corpus d (rank_at pagerank) p)
    else new_rank !! p.
Proof.
  unfold relaxed.
  rewrite (lookup_foldl_insert (relax corpus d (rank_at pagerank))).
  destruct (decide (p ∈ keys corpus)) as [H|H];
    rewrite elem_of_keys_dom in H;
    [by rewrite decide_True|by rewrite decide_False].
Qed.

Lemma dom_relaxed (pagerank new_rank : gmap string Q) :
  dom new_rank = dom corpus →
  dom (relaxed corpus d pagerank new_rank) = dom corpus.
Proof.
  intros Hdom. apply set_eq. intros p.
  rewrite elem_of_dom, lookup_relaxed.
  destruct (decide (p ∈ dom corpus)) as [Hp|Hp]; [by split|].
  by rewrite <- elem_of_dom, Hdom.
Qed.

Lemma rank_at_relaxed (pagerank new_rank : gmap string Q) (p : string) :
  p ∈ dom corpus →
  rank_at (relaxed corpus d pagerank new_rank) p
  = relax corpus d (rank_at pagerank) p.
Proof.
  intros Hp. apply rank_at_Some. by rewrite lookup_relaxed, decide_True.
Qed.

(** Lines 119 and 128-130: the test never raises when [new_rank] has an
    entry for every page of [pagerank], and it succeeds exactly when no
    entry moved by more than the tolerance. *)
Lemma convergence_test_ok (pagerank new_rank : gmap string Q) :
  dom pagerank ⊆ dom new_rank →
  ∃ converged : bool,
    convergence_test pagerank new_rank = Ok converged
    ∧ (converged = true ↔
       ∀ p, p ∈ dom pagerank →
         Qabs (rank_at new_rank p - rank_at pagerank p) <= tolerance).
Proof.
  intros Hdom. unfold convergence_test.
  assert (∀ item, item ∈ map_to_list pagerank →
            item.1 ∈ dom new_rank ∧ rank_at pagerank item.1 = item.2)
    as Hitems.
  { intros [p v] Hitem%elem_of_map_to_list. simpl. split.
    - apply Hdom, elem_of_dom. eauto.
    - by apply rank_at_Some. }
  assert (∀ item, item ∈ map_to_list pagerank → item.1 ∈ dom pagerank)
    as Hkeys.
  { intros [p v] Hitem%elem_of_map_to_list. apply elem_of_dom. eauto. }
  assert (∀ p, p ∈ dom pagerank →
            ∃ item, item ∈ map_to_list pagerank ∧ item.1 = p) as Hall.
  { intros p [v Hv]%elem_of_dom. exists (p, v).
    split; [by apply elem_of_map_to_list|done]. }
  revert Hitems Hkeys Hall. generalize (map_to_list pagerank) as l.
  intros l Hitems Hkeys Hall.
  assert (∀ b : bool, ∃ converged : bool,
            for_each
              (λ (converged : bool) (item : string * Q),
                 let* new := getitem new_rank item.1 in
                 if Qlt_le_dec tolerance (Qabs (new - item.2)) then Ok false
                 else Ok converged) b l = Ok converged
            ∧ (converged = true ↔
               b = true ∧
               ∀ item, item ∈ l →
                 Qabs (rank_at new_rank item.1 - item.2) <= tolerance))
    as Hloop.
  { clear Hall Hkeys. induction l as [|item l IH]; intros b.
    - exists b. split; [done|]. split; [|tauto].
      intros ->. split; [done|]. by intros item ?%elem_of_nil.
    - destruct (Hitems item) as [Hin _]; [left|].
      cbn [for_each]. rewrite getitem_rank_at by done. cbn [bind].
      destruct (Qlt_le_dec tolerance
                  (Qabs (rank_at new_rank item.1 - item.2))) as [Hgt|Hle];
        cbn [bind].
      + destruct (IH (λ i Hi, Hitems i (list_elem_of_further _ _ _ Hi))
                    false) as (c & -> & Hc).
        exists c. split; [done|]. rewrite Hc. split; [by intros [? _]|].
        intros [_ Hl]. exfalso.
        specialize (Hl item (list_elem_of_here _ _)). lra.
      + destruct (IH (λ i Hi, Hitems i (list_elem_of_further _ _ _ Hi))
                    b) as (c & -> & Hc).
        exists c. split; [done|]. rewrite Hc. split.
        * intros [-> Hl]. split; [done|].
          intros i [->|Hi]%elem_of_cons; [done|by apply Hl].
        * intros [-> Hl]. split; [done|].
          intros i Hi. apply Hl. by right. }
  destruct (Hloop true) as (c & -> & Hc).
  exists c. split; [done|]. rewrite Hc. split.
  - intros [_ Hl] p Hp. destruct (Hall p Hp) as (item & Hitem & <-).
    destruct (Hitems item Hitem) as [_ ->]. by apply Hl.
  - intros Hp. split; [done|]. intros item Hitem.
    destruct (Hitems item Hitem) as [_ <-]. by apply Hp, Hkeys.
Qed.
End Relaxation.

(** ** The relaxation map *)

Lemma Qinv_Qnat_nonneg (n : nat) : 0 <= 1 / Qnat n.
Proof.
  destruct n as [|n]; [by vm_compute|].
  apply Qdiv_nonneg; [lra|]. by apply Qnat_pos.
Qed.

Lemma weight_nonneg (N : nat) (page : string) (links : gset string) :
  0 <= weight N page links.
Proof.
  unfold weight. destruct (decide _); [apply Qinv_Qnat_nonneg|lra].
Qed.

Section RelaxationMap.
Variable corpus : gmap string (gset string).
Variable d : Q.
Hypothesis corpus_nonempty : size corpus ≠ O.

Let N := size corpus.

Lemma sum_items_keys (u : string → Q) :
  Qsum ((λ item : string * gset string, u item.1) <$> map_to_list corpus)
  = Qsum (u <$> keys corpus).
Proof. unfold keys. by rewrite <- list_fmap_compose. Qed.

(** The accumulation of lines 121-124 is a weighted sum. *)
Lemma total_of_weight (x : string → Q) (p : string) :
  total_of corpus N x p
  == Qsum ((λ item : string * gset string, weight N p item.2 * x item.1)
             <$> map_to_list corpus).
Proof.
  unfold total_of.
  rewrite (foldl_Qsum
             (λ item : string * gset string, p ∈ item.2 ∨ item.2 = ∅)
             (λ item, x item.1
                      / Qnat (if decide (item.2 = ∅) then N
                              else size item.2))).
  rewrite Qplus_0_l. apply Qsum_ext. intros item _. unfold weight.
  destruct (decide _); [|ring]. unfold Qdiv. ring.
Qed.

(** The weights that leave one page add up to at most 1, and to exactly 1
    when its links stay inside the corpus. *)
Lemma column_sum (links : gset string) :
  0 <= Qsum ((λ p, weight N p links) <$> keys corpus) <= 1
  ∧ (links ⊆ dom corpus →
     Qsum ((λ p, weight N p links) <$> keys corpus) == 1).
Proof.
  pose proof (Qnat_pos N corpus_nonempty) as HN.
  destruct (decide (links = ∅)) as [->|Hne].
  - assert (Qsum ((λ p, weight N p ∅) <$> keys corpus) == 1) as ->.
    { rewrite (Qsum_ext _ (λ _, 1 / Qnat N)).
      - rewrite Qsum_const, length_keys. fold N. field. lra.
      - intros p _. unfold weight.
        rewrite decide_True by (by right). by rewrite decide_True. }
    split; [lra|reflexivity].
  - pose proof (Qnat_pos _ (links_size_nonzero links Hne)) as HL.
    assert (Qsum ((λ p, weight N p links) <$> keys corpus)
            == Qnat (length (filter (λ p, p ∈ links) (keys corpus)))
               / Qnat (size links)) as ->.
    { rewrite (Qsum_ext _ (λ p, if decide (p ∈ links)
                                then 1 / Qnat (size links) else 0)).
      - rewrite (Qsum_indicator (λ p, p ∈ links)). field. lra.
      - intros p _. unfold weight. rewrite (decide_False (P := links = ∅)) by done.
        destruct (decide (p ∈ links)) as [Hp|Hp].
        + rewrite decide_True by (by left). reflexivity.
        + rewrite decide_False; [reflexivity|]. by intros [?|?]. }
    split.
    + split.
      * apply Qdiv_nonneg; [apply Qnat_nonneg|done].
      * apply Qle_shift_div_r; [done|]. rewrite Qmult_1_l.
        apply Qnat_le, length_filter_le, NoDup_keys.
    + intros Hsub. rewrite length_filter_subseteq.
      * field. lra.
      * apply NoDup_keys.
      * intros k Hk. by apply elem_of_keys_dom, Hsub.
Qed.

(** Summing the weighted sums over all pages regroups them by source
    page. *)
Lemma sum_totals (u : string → Q) :
  Qsum ((λ p, Qsum ((λ item : string * gset string,
                       weight N p item.2 * u item.1)
                      <$> map_to_list corpus)) <$> keys corpus)
  == Qsum ((λ item : string * gset string,
              Qsum ((λ p, weight N p item.2) <$> keys corpus) * u item.1)
             <$> map_to_list corpus).
Proof.
  rewrite (Qsum_swap
             (λ p (item : string * gset string),
                weight N p item.2 * u item.1)).
  apply Qsum_ext. intros item _.
  rewrite (Qsum_ext _ (λ p, u item.1 * weight N p item.2))
    by (intros; ring).
  rewrite Qsum_scale. ring.
Qed.

(** A pass keeps the total mass: it maps mass [m] to [(1 - d) + d * m]. *)
Lemma relax_mass (x : string → Q) :
  corpus_graph corpus →
  Qsum (relax corpus d x <$> keys corpus)
  == (1 - d) + d * Qsum (x <$> keys corpus).
Proof.
  intros Hgraph. pose proof (Qnat_pos N corpus_nonempty) as HN.
  unfold relax. fold N.
  rewrite (Qsum_plus (λ _, (1 - d) / Qnat N)
                     (λ p, d * total_of corpus N x p)).
  rewrite Qsum_const, length_keys, Qsum_scale. fold N.
  rewrite (Qsum_ext (total_of corpus N x) _ _
             (λ p _, total_of_weight x p)).
  rewrite sum_totals.
  rewrite (Qsum_ext _ (λ item : string * gset string, x item.1)).
  - rewrite sum_items_keys. field. lra.
  - intros [q links] Hitem%elem_of_map_to_list. simpl.
    destruct (column_sum links) as [_ Hone].
    rewrite Hone; [ring|]. by destruct (Hgraph q links Hitem).
Qed.

(** A pass is a contraction with factor [|d|]. *)
Lemma relax_contraction (x y : string → Q) :
  distance corpus (relax corpus d x) (relax corpus d y)
  <= Qabs d * distance corpus x y.
Proof.
  unfold distance.
  eapply Qle_trans.
  { apply (Qsum_le _
             (λ p, Qabs d
                   * Qsum ((λ item : string * gset string,
                              weight N p item.2
                              * Qabs (y item.1 - x item.1))
                             <$> map_to_list corpus))).
    intros p _. unfold relax. fold N.
    assert (relax_diff :
              (1 - d) / Qnat N + d * total_of corpus N y p
              - ((1 - d) / Qnat N + d * total_of corpus N x p)
              == d * Qsum ((λ item : string * gset string,
                              weight N p item.2 * (y item.1 - x item.1))
                             <$> map_to_list corpus)).
    { rewrite !total_of_weight.
      rewrite (Qsum_ext
                 (λ item : string * gset string,
                    weight N p item.2 * (y item.1 - x item.1))
                 (λ item, weight N p item.2 * y item.1
                          + (-1) * (weight N p item.2 * x item.1)))
        by (intros; ring).
      rewrite Qsum_plus, Qsum_scale. ring. }
    rewrite relax_diff, Qabs_Qmult.
    apply Qmult_le_l_nonneg; [apply Qabs_nonneg|].
    eapply Qle_trans; [apply Qabs_Qsum|].
    apply Qsum_le. intros item _.
    rewrite Qabs_Qmult, (Qabs_pos (weight N p item.2))
      by apply weight_nonneg.
    apply Qle_refl. }
  rewrite Qsum_scale.
  apply Qmult_le_l_nonneg; [apply Qabs_nonneg|].
  pose proof (sum_totals (λ q, Qabs (y q - x q))) as Hregroup.
  cbv beta in Hregroup. rewrite Hregroup.
  rewrite <- (sum_items_keys (λ q, Qabs (y q - x q))).
  apply Qsum_le. intros [q links] _. cbn [fst snd].
  destruct (column_sum links) as [[_ Hle] _].
  pose proof (Qabs_nonneg (y q - x q)) as Hpos.
  revert Hle Hpos.
  generalize (Qsum ((λ p, weight N p links) <$> keys corpus)) as c.
  generalize (Qabs (y q - x q)) as a. intros a c Hle Hpos. nra.
Qed.

Lemma relax_nonneg (x : string → Q) (p : string) :
  0 <= d <= 1 → (∀ q, q ∈ dom corpus → 0 <= x q) →
  0 <= relax corpus d x p.
Proof.
  intros Hd Hx. pose proof (Qnat_pos N corpus_nonempty) as HN.
  unfold relax. fold N.
  assert (0 <= (1 - d) / Qnat N) by (apply Qdiv_nonneg; lra).
  assert (0 <= total_of corpus N x p).
  { rewrite total_of_weight. apply Qsum_nonneg.
    intros [q links] Hitem%elem_of_map_to_list. simpl.
    apply Qmult_le_0_compat; [apply weight_nonneg|].
    apply Hx, elem_of_dom. eauto. }
  nra.
Qed.
End RelaxationMap.

(** ** Geometric decay *)

Lemma Qpow_nonneg (a : Q) (m : nat) : 0 <= a → 0 <= Qpow a m.
Proof.
  intros Ha. induction m as [|m IH]; simpl; [lra|].
  by apply Qmult_le_0_compat.
Qed.

(** Bernoulli's inequality, in the form [a^m * (1 + m * (1 - a)) <= 1]. *)
Lemma Qpow_bernoulli (a : Q) (m : nat) :
  0 <= a <= 1 → Qpow a m * (1 + Qnat m * (1 - a)) <= 1.
Proof.
  intros Ha. induction m as [|m IH].
  - simpl. change (Qnat 0) with 0. lra.
  - cbn [Qpow]. rewrite Qnat_S.
    pose proof (Qpow_nonneg a m (proj1 Ha)) as HP.
    pose proof (Qnat_nonneg m) as Hm.
    revert IH HP Hm. generalize (Qpow a m) as P. generalize (Qnat m) as n.
    intros n P IH HP Hm.
    assert (0 <= P * (n + 1) * (1 - a) * (1 - a)) as Hsq.
    { repeat apply Qmult_le_0_compat; lra. }
    assert (a * P * (1 + (n + 1) * (1 - a))
            == P * (1 + n * (1 - a)) - P * (n + 1) * (1 - a) * (1 - a))
      as -> by ring.
    lra.
Qed.

(** A geometric sequence of ratio below 1 falls under the tolerance. *)
Lemma geometric_small (a C : Q) :
  0 <= a < 1 → 0 <= C → ∃ m : nat, C * Qpow a m <= tolerance.
Proof.
  intros Ha HC.
  destruct (Qarchimedean (C * 1000 / (1 - a))) as [p Hp].
  exists (Pos.to_nat p).
  assert (Qnat (Pos.to_nat p) == Z.pos p # 1) as Hnat.
  { unfold Qnat. by rewrite positive_nat_Z. }
  assert (C * 1000 < (Z.pos p # 1) * (1 - a)) as Hbig.
  { assert (C * 1000 == C * 1000 / (1 - a) * (1 - a)) as Hdiv
      by (field; lra).
    rewrite Hdiv at 1. apply Qmult_lt_r; [lra|exact Hp]. }
  pose proof (Qpow_bernoulli a (Pos.to_nat p) ltac:(lra)) as Hb.
  pose proof (Qpow_nonneg a (Pos.to_nat p) (proj1 Ha)) as HP.
  rewrite Hnat in Hb. unfold tolerance.
  revert Hb HP Hbig. generalize (Qpow a (Pos.to_nat p)) as P.
  generalize (Z.pos p # 1) as n. intros n P Hb HP Hbig.
  destruct (Qlt_le_dec (1 # 1000) (C * P)) as [Hgt|]; [exfalso|done].
  assert (0 < 1 + n * (1 - a)) as Hpos by lra.
  assert ((1 # 1000) * (1 + n * (1 - a)) < C * P * (1 + n * (1 - a)))
    as H1 by (apply Qmult_lt_r; lra).
  assert (C * (P * (1 + n * (1 - a))) <= C * 1) as H2
    by (apply Qmult_le_l_nonneg; lra).
  lra.
Qed.

(** ** The loop of [iterate_pagerank] *)

Lemma Qsum_term_le {A : Type} (f : A → Q) (l : list A) (a : A) :
  (∀ x, x ∈ l → 0 <= f x) → a ∈ l → f a <= Qsum (f <$> l).
Proof.
  induction l as [|x l IH]; intros Hpos Ha; [by apply elem_of_nil in Ha|].
  sum_cons.
  assert (0 <= f x) by (apply Hpos; left).
  assert (0 <= Qsum (f <$> l)).
  { apply Qsum_nonneg. intros y Hy. apply Hpos. by right. }
  apply elem_of_cons in Ha as [->|Ha]; [lra|].
  assert (f a <= Qsum (f <$> l)).
  { apply IH; [|done]. intros y Hy. apply Hpos. by right. }
  lra.
Qed.

Section Loop.
Variable corpus : gmap string (gset string).
Variable d : Q.

(** One turn of the [while] loop, when the dicts have an entry for every
    page: the pass is [relaxed], and the loop stops exactly when no entry
    moved by more than the tolerance. *)
Lemma iterate_loop_turn (fuel : nat) (pagerank new_rank : gmap string Q) :
  dom pagerank = dom corpus → dom new_rank = dom corpus →
  ∃ converged : bool,
    (converged = true ↔
     ∀ p, p ∈ dom corpus →
       Qabs (rank_at (relaxed corpus d pagerank new_rank) p
             - rank_at pagerank p) <= tolerance)
    ∧ iterate_loop (S fuel) corpus d (size corpus) pagerank new_rank
      = if converged
        then Some (Ok (relaxed corpus d pagerank new_rank))
        else iterate_loop fuel corpus d (size corpus)
               (relaxed corpus d pagerank new_rank)
               (relaxed corpus d pagerank new_rank).
Proof.
  intros Hdom Hnew. cbn [iterate_loop].
  rewrite relaxation_pass_ok by (by rewrite Hdom).
  destruct (convergence_test_ok pagerank
              (relaxed corpus d pagerank new_rank))
    as (converged & -> & Hiff).
  { by rewrite dom_relaxed, Hdom. }
  exists converged. split; [|done]. by rewrite Hiff, Hdom.
Qed.

(** Whatever is true of the first dict and is kept by a pass is true of
    the dict the loop returns. *)
Lemma iterate_loop_invariant (Inv : gmap string Q → Prop) :
  (∀ r, Inv r → dom r = dom corpus) →
  (∀ r nr, Inv r → dom nr = dom corpus → Inv (relaxed corpus d r nr)) →
  ∀ fuel pagerank new_rank result,
    Inv pagerank → dom new_rank = dom corpus →
    iterate_loop fuel corpus d (size corpus) pagerank new_rank
    = Some (Ok result) →
    Inv result.
Proof.
  intros Hdom Hkeep fuel.
  induction fuel as [|fuel IH]; intros pagerank new_rank result Hinv Hnew;
    [done|].
  destruct (iterate_loop_turn fuel pagerank new_rank)
    as (converged & _ & ->); [by apply Hdom|done|].
  pose proof (Hkeep _ _ Hinv Hnew) as Hnext.
  destruct converged; [by intros [= <-]|].
  apply IH; [done|]. by apply Hdom.
Qed.

(** More fuel does not change what the loop returns. *)
Lemma iterate_loop_more_fuel (fuel fuel' : nat)
    (pagerank new_rank : gmap string Q) (r : result (gmap string Q)) :
  (fuel <= fuel')%nat →
  iterate_loop fuel corpus d (size corpus) pagerank new_rank = Some r →
  iterate_loop fuel' corpus d (size corpus) pagerank new_rank = Some r.
Proof.
  revert fuel' pagerank new_rank.
  induction fuel as [|fuel IH]; intros fuel' pagerank new_rank Hle; [done|].
  destruct fuel' as [|fuel']; [lia|]. cbn [iterate_loop].
  destruct (relaxation_pass _ _ _ _ _) as [nr|e]; [|done].
  destruct (convergence_test _ _) as [[|]|e]; [done| |done].
  apply IH. lia.
Qed.

Hypothesis corpus_nonempty : size corpus ≠ O.

(** The loop stops within [m + 1] passes once the first move, shrunk [m]
    times by the factor [|d|], is within the tolerance. *)
Lemma iterate_loop_terminates (m : nat) :
  ∀ pagerank new_rank : gmap string Q,
    dom pagerank = dom corpus → dom new_rank = dom corpus →
    distance corpus (rank_at pagerank)
             (rank_at (relaxed corpus d pagerank new_rank))
    * Qpow (Qabs d) m <= tolerance →
    ∃ result,
      iterate_loop (S m) corpus d (size corpus) pagerank new_rank
      = Some (Ok result).
Proof.
  induction m as [|m IH]; intros pagerank new_rank Hdom Hnew Hsmall.
  - destruct (iterate_loop_turn O pagerank new_rank)
      as (converged & Hiff & ->); [done..|].
    destruct converged; [eauto|]. exfalso.
    assert (false = true); [|done]. apply Hiff. intros p Hp.
    eapply Qle_trans; [|exact Hsmall]. cbn [Qpow]. rewrite Qmult_1_r.
    unfold distance.
    apply (Qsum_term_le
             (λ p, Qabs (rank_at (relaxed corpus d pagerank new_rank) p
                         - rank_at pagerank p))).
    + intros q _. apply Qabs_nonneg.
    + by apply elem_of_keys_dom.
  - destruct (iterate_loop_turn (S m) pagerank new_rank)
      as (converged & _ & ->); [done..|].
    destruct converged; [eauto|].
    set (next := relaxed corpus d pagerank new_rank) in *.
    assert (dom next = dom corpus) as Hnext by (by apply dom_relaxed).
    apply IH; [done..|].
    eapply Qle_trans; [|exact Hsmall].
    assert (distance corpus (rank_at next)
                     (rank_at (relaxed corpus d next next))
            <= Qabs d * distance corpus (rank_at pagerank) (rank_at next))
      as Hcontract.
    { eapply Qle_trans; [|by apply relax_contraction].
      unfold distance. apply Qle_lteq. right.
      apply Qsum_ext. intros p Hp%elem_of_keys_dom.
      rewrite (rank_at_relaxed corpus d next next p Hp).
      assert (rank_at next p = relax corpus d (rank_at pagerank) p) as ->
        by (by apply rank_at_relaxed).
      reflexivity. }
    cbn [Qpow].
    pose proof (Qpow_nonneg (Qabs d) m (Qabs_nonneg d)) as HP.
    revert Hcontract HP.
    generalize (distance corpus (rank_at next)
                         (rank_at (relaxed corpus d next next))) as D1.
    generalize (distance corpus (rank_at pagerank) (rank_at next)) as D0.
    generalize (Qpow (Qabs d) m) as P. generalize (Qabs d) as a.
    intros a P D0 D1 Hcontract HP.
    assert (D1 * P <= a * D0 * P) by (apply Qmult_le_compat_r; lra).
    lra.
Qed.
End Loop.

(** ** [iterate_pagerank] *)

Section IteratePagerank.
Variable corpus : gmap string (gset string).
Variable d : Q.

Lemma iterate_pagerank_unfold (fuel : nat) :
  iterate_pagerank fuel corpus d
  = iterate_loop fuel corpus d (size corpus) (uniform corpus)
                 ((λ _, 0) <$> corpus).
Proof. unfold iterate_pagerank. cbv zeta. by rewrite fill_loop. Qed.

Lemma dom_uniform : dom (uniform corpus) = dom corpus.
Proof. apply dom_fill. Qed.

Lemma rank_at_uniform (p : string) :
  p ∈ dom corpus → rank_at (uniform corpus) p = 1 / Qnat (size corpus).
Proof.
  intros Hp. apply rank_at_Some. unfold uniform.
  by rewrite lookup_fill, decide_True.
Qed.

Lemma mass_uniform : size corpus ≠ O → mass (uniform corpus) == 1.
Proof.
  intros HN. pose proof (Qnat_pos _ HN).
  rewrite (mass_keys _ corpus) by apply dom_uniform.
  rewrite (Qsum_ext _ (λ _, 1 / Qnat (size corpus))).
  - rewrite Qsum_const, length_keys. field. lra.
  - intros p Hp%elem_of_keys_dom. by rewrite rank_at_uniform.
Qed.

(** Termination, for a damping factor of absolute value below 1. *)
Lemma iterate_pagerank_contracts :
  size corpus ≠ O → Qabs d < 1 →
  ∃ fuel result, iterate_pagerank fuel corpus d = Some (Ok result).
Proof.
  intros HN Hd.
  destruct (geometric_small (Qabs d)
              (distance corpus (rank_at (uniform corpus))
                 (rank_at (relaxed corpus d (uniform corpus)
                             ((λ _, 0) <$> corpus)))))
    as [m Hm].
  - split; [apply Qabs_nonneg|done].
  - unfold distance. apply Qsum_nonneg. intros p _. apply Qabs_nonneg.
  - destruct (iterate_loop_terminates corpus d HN m (uniform corpus)
                ((λ _, 0) <$> corpus)) as [result Hresult].
    + apply dom_uniform.
    + apply dom_fmap_L.
    + exact Hm.
    + exists (S m), result. by rewrite iterate_pagerank_unfold.
Qed.

Lemma iterate_pagerank_invariant (Inv : gmap string Q → Prop) :
  (∀ r, Inv r → dom r = dom corpus) →
  (∀ r nr, Inv r → dom nr = dom corpus → Inv (relaxed corpus d r nr)) →
  Inv (uniform corpus) →
  ∀ fuel result,
    iterate_pagerank fuel corpus d = Some (Ok result) → Inv result.
Proof.
  intros Hdom Hkeep Hinit fuel result. rewrite iterate_pagerank_unfold.
  apply (iterate_loop_invariant corpus d Inv Hdom Hkeep); [done|].
  apply dom_fmap_L.
Qed.

Lemma iterate_pagerank_more_fuel (fuel fuel' : nat)
    (r : result (gmap string Q)) :
  (fuel <= fuel')%nat →
  iterate_pagerank fuel corpus d = Some r →
  iterate_pagerank fuel' corpus d = Some r.
Proof.
  rewrite !iterate_pagerank_unfold. apply iterate_loop_more_fuel.
Qed.
End IteratePagerank.

Lemma size_nonzero_of_nonempty {V : Type} (corpus : gmap string V) :
  corpus ≠ ∅ → size corpus ≠ O.
Proof. intros Hne Hsize. by apply map_size_empty_iff in Hsize. Qed.

(** C2: for a corpus with at least one page and a damping factor below 1
    (a probability, so at least 0), [iterate_pagerank] returns after
    finitely many relaxation passes: some number of passes is enough, and
    any larger bound gives the same result. *)
Theorem iterate_pagerank_terminates (corpus : gmap string (gset string))
    (d : Q) :
  corpus ≠ ∅ → 0 <= d < 1 →
  ∃ (passes : nat) (result : gmap string Q),
    ∀ fuel, (passes <= fuel)%nat →
      iterate_pagerank fuel corpus d = Some (Ok result).
Proof.
  intros Hne Hd.
  destruct (iterate_pagerank_contracts corpus d) as (passes & result & Hrun).
  - by apply size_nonzero_of_nonempty.
  - rewrite Qabs_pos; lra.
  - exists passes, result. intros fuel Hfuel.
    by apply (iterate_pagerank_more_fuel corpus d passes).
Qed.

(** What a relaxation pass keeps on a corpus graph: an entry for every
    page, no negative entry, total mass 1. *)
Lemma relaxed_distribution (corpus : gmap string (gset string)) (d : Q)
    (r nr : gmap string Q) :
  corpus_graph corpus → size corpus ≠ O → 0 <= d <= 1 →
  dom nr = dom corpus →
  (dom r = dom corpus
   ∧ (∀ p, p ∈ dom corpus → 0 <= rank_at r p) ∧ mass r == 1) →
  dom (relaxed corpus d r nr) = dom corpus
  ∧ (∀ p, p ∈ dom corpus → 0 <= rank_at (relaxed corpus d r nr) p)
  ∧ mass (relaxed corpus d r nr) == 1.
Proof.
  intros Hgraph HN Hd Hnr (Hdom & Hpos & Hmass).
  pose proof (dom_relaxed corpus d r nr Hnr) as Hdom'.
  split; [done|]. split.
  - intros p Hp. rewrite rank_at_relaxed by done. by apply relax_nonneg.
  - rewrite (mass_keys _ corpus) by done.
    rewrite (Qsum_ext _ (relax corpus d (rank_at r))).
    + rewrite relax_mass by done.
      rewrite <- (mass_keys r corpus) by done. rewrite Hmass. ring.
    + intros p Hp%elem_of_keys_dom. by rewrite rank_at_relaxed.
Qed.

(** C4: on a corpus graph with at least one page and for a damping factor in
    (0,1), [iterate_pagerank] returns a distribution with an entry for every
    page of the corpus, no negative entry, and total mass 1. *)
Theorem iterate_pagerank_distribution (corpus : gmap string (gset string))
    (d : Q) :
  corpus_graph corpus → corpus ≠ ∅ → 0 < d < 1 →
  ∃ (passes : nat) (result : gmap string Q),
    (∀ fuel, (passes <= fuel)%nat →
       iterate_pagerank fuel corpus d = Some (Ok result))
    ∧ dom result = dom corpus
    ∧ (∀ p v, result !! p = Some v → 0 <= v)
    ∧ mass result == 1.
Proof.
  intros Hgraph Hne Hd.
  pose proof (size_nonzero_of_nonempty corpus Hne) as HN.
  destruct (iterate_pagerank_contracts corpus d) as (passes & result & Hrun);
    [done|rewrite Qabs_pos; lra|].
  exists passes, result. split.
  { intros fuel Hfuel. by apply (iterate_pagerank_more_fuel corpus d passes). }
  pose proof (iterate_pagerank_invariant corpus d
                (λ r, dom r = dom corpus
                      ∧ (∀ p, p ∈ dom corpus → 0 <= rank_at r p)
                      ∧ mass r == 1)) as Hinv.
  destruct (Hinv ltac:(tauto)) with (fuel := passes) (result := result)
    as (Hdom & Hpos & Hmass); [| |done|].
  - intros r nr Hr Hnr. apply relaxed_distribution; (done || lra).
  - split; [apply dom_uniform|]. split; [|by apply mass_uniform].
    intros p Hp. rewrite rank_at_uniform by done. apply Qinv_Qnat_nonneg.
  - split; [done|]. split; [|done].
    intros p v Hv. rewrite <- (rank_at_Some _ _ _ Hv).
    apply Hpos. rewrite <- Hdom. apply elem_of_dom. eauto.
Qed.

(** On a corpus whose pages have no links, a pass over ranks [1/N] gives
    [1/N] again. *)
Lemma relax_all_dangling (corpus : gmap string (gset string)) (d : Q)
    (x : string → Q) (p : string) :
  size corpus ≠ O →
  (∀ page links, corpus !! page = Some links → links = ∅) →
  (∀ q, q ∈ dom corpus → x q == 1 / Qnat (size corpus)) →
  relax corpus d x p == 1 / Qnat (size corpus).
Proof.
  intros HN Hdangling Hx. pose proof (Qnat_pos _ HN).
  unfold relax. rewrite total_of_weight.
  rewrite (Qsum_ext _ (λ _, 1 / Qnat (size corpus) * (1 / Qnat (size corpus)))).
  - rewrite Qsum_const, length_map_to_list. field. lra.
  - intros [q links] Hitem%elem_of_map_to_list. simpl.
    rewrite (Hdangling q links Hitem). unfold weight.
    rewrite decide_True by (by right). rewrite decide_True by done.
    rewrite Hx; [reflexivity|]. apply elem_of_dom. eauto.
Qed.

(** C6, as amended: in exact arithmetic, on a corpus of [k >= 1] pages,
    none of which has a link, the first pass of [iterate_pagerank] already
    meets the convergence test, and the result gives [1/k] to every page
    (for every damping factor, in particular for those in [0,1]).  In
    binary64 the value is [1/k] up to rounding only, as the evaluation of
    [iterate_pagerank_b64] on six pages shows. *)
Theorem iterate_pagerank_all_dangling (corpus : gmap string (gset string))
    (d : Q) :
  corpus ≠ ∅ →
  (∀ page links, corpus !! page = Some links → links = ∅) →
  ∃ result : gmap string Q,
    (∀ fuel, (1 <= fuel)%nat →
       iterate_pagerank fuel corpus d = Some (Ok result))
    ∧ dom result = dom corpus
    ∧ ∀ page, page ∈ dom corpus →
        ∃ v, result !! page = Some v ∧ v == 1 / Qnat (size corpus).
Proof.
  intros Hne Hdangling.
  pose proof (size_nonzero_of_nonempty corpus Hne) as HN.
  set (zeros := (λ _, 0) <$> corpus : gmap string Q).
  assert (dom zeros = dom corpus) as Hzeros by apply dom_fmap_L.
  assert (∀ p, p ∈ dom corpus →
            rank_at (relaxed corpus d (uniform corpus) zeros) p
            == 1 / Qnat (size corpus)) as Hrelaxed.
  { intros p Hp. rewrite rank_at_relaxed by done.
    apply relax_all_dangling; [done..|].
    intros q Hq. by rewrite rank_at_uniform. }
  exists (relaxed corpus d (uniform corpus) zeros).
  split; [|split].
  - intros fuel Hfuel.
    apply (iterate_pagerank_more_fuel corpus d 1 fuel); [done|].
    rewrite iterate_pagerank_unfold. fold zeros.
    destruct (iterate_loop_turn corpus d O (uniform corpus) zeros)
      as (converged & Hiff & ->); [apply dom_uniform|done|].
    destruct converged; [done|].
    assert (false = true); [|done]. apply Hiff. intros p Hp.
    rewrite Hrelaxed, rank_at_uniform by done.
    assert (1 / Qnat (size corpus) - 1 / Qnat (size corpus) == 0) as ->
      by ring.
    by vm_compute.
  - by apply dom_relaxed.
  - intros page Hpage. eexists. split.
    + by rewrite lookup_relaxed, decide_True.
    + rewrite <- (rank_at_relaxed corpus d (uniform corpus) zeros) by done.
      by apply Hrelaxed.
Qed.

(** ** Symmetric pages *)

Lemma foldl_ext_in {A B : Type} (f g : B → A → B) (l : list A) (b : B) :
  (∀ b x, x ∈ l → f b x = g b x) → foldl f b l = foldl g b l.
Proof.
  revert b. induction l as [|x l IH]; intros b Hfg; [done|].
  cbn [foldl]. rewrite (Hfg b x) by left.
  apply IH. intros b' y Hy. apply Hfg. by right.
Qed.

(** Two pages with the same incoming links get the same new rank. *)
Lemma relax_symmetric (corpus : gmap string (gset string)) (d : Q)
    (x : string → Q) (b c : string) :
  map_Forall (λ _ links, b ∈ links ↔ c ∈ links) corpus →
  relax corpus d x b = relax corpus d x c.
Proof.
  intros Hsym. unfold relax, total_of. do 2 f_equal.
  apply foldl_ext_in. intros total [q links] Hitem%elem_of_map_to_list.
  cbn [fst snd]. specialize (Hsym q links Hitem). simpl in Hsym.
  destruct (decide (b ∈ links ∨ links = ∅)) as [Hb|Hb];
    destruct (decide (c ∈ links ∨ links = ∅)) as [Hc|Hc];
    try done; exfalso; tauto.
Qed.

Lemma iterate_pagerank_symmetric (corpus : gmap string (gset string))
    (d : Q) (b c : string) (fuel : nat) (result : gmap string Q) :
  b ∈ dom corpus → c ∈ dom corpus →
  map_Forall (λ _ links, b ∈ links ↔ c ∈ links) corpus →
  iterate_pagerank fuel corpus d = Some (Ok result) →
  result !! b = result !! c ∧ is_Some (result !! b).
Proof.
  intros Hb Hc Hsym Hrun.
  apply (iterate_pagerank_invariant corpus d
           (λ r, dom r = dom corpus ∧ r !! b = r !! c ∧ is_Some (r !! b)))
    with (fuel := fuel) (result := result) in Hrun; [tauto|tauto| |].
  - intros r nr _ Hnr. split; [by apply dom_relaxed|].
    rewrite !lookup_relaxed, !decide_True by done.
    split; [|eauto]. f_equal. by apply relax_symmetric.
  - split; [apply dom_uniform|]. unfold uniform.
    rewrite !lookup_fill, !decide_True by done. eauto.
Qed.

(** C7: on the corpus [{A: {B, C}, B: {}, C: {}}] and for every damping
    factor in (0,1), [iterate_pagerank] returns, and the ranks it gives to
    [B] and to [C] are equal. *)
Theorem iterate_pagerank_hub_symmetric (d : Q) :
  0 < d < 1 →
  ∃ (passes : nat) (result : gmap string Q) (rank_B rank_C : Q),
    (∀ fuel, (passes <= fuel)%nat →
       iterate_pagerank fuel hub d = Some (Ok result))
    ∧ result !! "B"%string = Some rank_B
    ∧ result !! "C"%string = Some rank_C
    ∧ rank_B == rank_C.
Proof.
  intros Hd.
  destruct (iterate_pagerank_contracts hub d) as (passes & result & Hrun);
    [by vm_compute|rewrite Qabs_pos; lra|].
  destruct (iterate_pagerank_symmetric hub d "B" "C" passes result)
    as [Heq [rank_B HB]]; [by_computation..|done|].
  exists passes, result, rank_B, rank_B. split; [|split; [done|split]].
  - intros fuel Hfuel. by apply (iterate_pagerank_more_fuel hub d passes).
  - by rewrite <- Heq.
  - reflexivity.
Qed.

(** ** The [random] module *)

Section Random.
Variable raw : nat → N.

Lemma choice_ok (k : nat) (seq : list string) :
  seq ≠ [] → ∃ x, choice raw k seq = Ok x ∧ x ∈ seq.
Proof.
  intros Hne. unfold choice. destruct seq as [|y seq']; [done|].
  set (l := y :: seq') in *.
  assert (N.to_nat (raw k mod N.of_nat (length l)) < length l)%nat as Hlt.
  { assert (raw k mod N.of_nat (length l) < N.of_nat (length l))%N
      by (apply N.mod_lt; simpl; lia).
    lia. }
  apply lookup_lt_is_Some in Hlt as [x Hx]. rewrite Hx.
  exists x. split; [done|]. by eapply list_elem_of_lookup_2.
Qed.

Lemma length_accumulate_from (acc : Q) (ws : list Q) :
  length (accumulate_from acc ws) = length ws.
Proof.
  revert acc. induction ws as [|w ws IH]; intros acc; simpl; [done|].
  by rewrite IH.
Qed.

Lemma length_accumulate (ws : list Q) : length (accumulate ws) = length ws.
Proof.
  destruct ws as [|w ws]; simpl; [done|]. by rewrite length_accumulate_from.
Qed.

Lemma last_accumulate_from (acc : Q) (ws : list Q) :
  ∃ total, last (acc :: accumulate_from acc ws) = Some total
           ∧ total == acc + Qsum ws.
Proof.
  revert acc. induction ws as [|w ws IH]; intros acc.
  - exists acc. split; [done|]. simpl. lra.
  - destruct (IH (acc + w)) as (total & Hlast & Htotal).
    exists total. split; [exact Hlast|]. rewrite Htotal. simpl. lra.
Qed.

(** The last running sum is the total weight. *)
Lemma last_accumulate (ws : list Q) :
  ws ≠ [] → ∃ total, last (accumulate ws) = Some total ∧ total == Qsum ws.
Proof.
  destruct ws as [|w ws]; [done|]. intros _.
  destruct (last_accumulate_from w ws) as (total & Hlast & Htotal).
  exists total. split; [exact Hlast|]. rewrite Htotal. reflexivity.
Qed.

(** The binary search returns an index between its bounds. *)
Lemma bisect_loop_ok (a : list Q) (x : Q) (fuel : nat) :
  ∀ lo hi, (lo <= hi)%nat → (hi <= length a)%nat →
    ∃ i, bisect_loop fuel a x lo hi = Ok i ∧ (lo <= i <= hi)%nat.
Proof.
  induction fuel as [|fuel IH]; intros lo hi Hlo Hhi; cbn [bisect_loop].
  - exists lo. split; [done|lia].
  - destruct (lo <? hi)%nat eqn:Hlt; [|exists lo; split; [done|lia]].
    apply Nat.ltb_lt in Hlt.
    assert (lo <= (lo + hi) / 2)%nat
      by (apply Nat.div_le_lower_bound; lia).
    assert ((lo + hi) / 2 < hi)%nat
      by (apply Nat.Div0.div_lt_upper_bound; lia).
    destruct (lookup_lt_is_Some_2 a ((lo + hi) / 2)) as [am ->]; [lia|].
    destruct (Qlt_le_dec x am).
    + destruct (IH lo ((lo + hi) / 2)%nat) as (i & -> & Hi); [lia..|].
      exists i. split; [done|lia].
    + destruct (IH ((lo + hi) / 2 + 1)%nat hi) as (i & -> & Hi); [lia..|].
      exists i. split; [done|lia].
Qed.

(** The fuel [hi - lo] is enough: with it the loop ends by its own test,
    so one more unit changes nothing. *)
Lemma bisect_loop_fuel (a : list Q) (x : Q) (fuel : nat) :
  ∀ lo hi, (hi - lo <= fuel)%nat →
    bisect_loop (S fuel) a x lo hi = bisect_loop fuel a x lo hi.
Proof.
  induction fuel as [|fuel IH]; intros lo hi Hfuel.
  - cbn [bisect_loop].
    destruct (lo <? hi)%nat eqn:Hlt; [|done].
    apply Nat.ltb_lt in Hlt. lia.
  - cbn [bisect_loop] in *.
    destruct (lo <? hi)%nat eqn:Hlt; [|done].
    apply Nat.ltb_lt in Hlt.
    assert (lo <= (lo + hi) / 2)%nat
      by (apply Nat.div_le_lower_bound; lia).
    assert ((lo + hi) / 2 < hi)%nat
      by (apply Nat.Div0.div_lt_upper_bound; lia).
    destruct (a !! ((lo + hi) / 2)%nat) as [am|]; [|done].
    destruct (Qlt_le_dec x am); apply IH; lia.
Qed.

Lemma choices_ok (k : nat) (population : list string) (weights : list Q) :
  length population = length weights → weights ≠ [] →
  0 < Qsum weights →
  ∃ x, choices raw k population weights = Ok x ∧ x ∈ population.
Proof.
  intros Hlen Hne Hpos. unfold choices.
  rewrite length_accumulate, Hlen, Nat.eqb_refl. cbn [negb].
  destruct (last_accumulate weights Hne) as (total & -> & Htotal).
  destruct (Qle_bool total 0) eqn:Hle.
  { apply Qle_bool_iff in Hle. lra. }
  destruct (bisect_loop_ok (accumulate weights) (random raw k * total)
              (length weights - 1 - 0) 0 (length weights - 1))
    as (i & Hi & Hrange); [lia|rewrite length_accumulate; lia|].
  unfold bisect. rewrite Hi. cbn [bind].
  assert (i < length population)%nat as Hlt.
  { destruct weights; [done|]. simpl in *. lia. }
  apply lookup_lt_is_Some in Hlt as [y Hy]. rewrite Hy.
  exists y. split; [done|]. by eapply list_elem_of_lookup_2.
Qed.
End Random.

(** ** [sample_pagerank] *)

Lemma visit_count_cons (p q : string) (walk : list string) :
  visit_count p (q :: walk)
  = ((if decide (q = p) then 1 else 0) + visit_count p walk)%nat.
Proof.
  unfold visit_count. rewrite filter_cons. by destruct (decide (q = p)).
Qed.

Lemma count_total_increment (counts : gmap string nat) (p : string)
    (c : nat) :
  counts !! p = Some c →
  count_total (<[p := S c]> counts) = S (count_total counts).
Proof.
  intros Hp. unfold count_total.
  rewrite <- (insert_delete_eq counts p (S c)).
  rewrite <- (insert_delete_id counts p c Hp) at 2.
  rewrite !map_to_list_insert by apply lookup_delete_eq.
  by rewrite !fmap_cons.
Qed.

Lemma count_total_zeros {V : Type} (corpus : gmap string V) :
  count_total ((λ _, O) <$> corpus) = O.
Proof.
  unfold count_total.
  assert (∀ c, c ∈ (map_to_list ((λ _ : V, O) <$> corpus)).*2 → c = O)
    as Hzero.
  { intros c ([k c'] & -> & Hin%elem_of_map_to_list)%list_elem_of_fmap.
    rewrite lookup_fmap in Hin. simpl.
    destruct (corpus !! k); simpl in Hin; congruence. }
  revert Hzero. generalize (map_to_list ((λ _ : V, O) <$> corpus)).*2 as cs.
  induction cs as [|c cs IH]; intros Hzero; [done|]. simpl.
  rewrite (Hzero c) by left. apply IH. intros c' Hc'. apply Hzero. by right.
Qed.

Lemma increment_ok (counts : gmap string nat) (p : string) :
  p ∈ dom counts →
  ∃ c, counts !! p = Some c ∧ increment counts p = Ok (<[p := S c]> counts).
Proof.
  intros [c Hc]%elem_of_dom. exists c. split; [done|].
  unfold increment. by rewrite (getitem_Some _ _ _ Hc).
Qed.

(** The loop of assignments [normalized[page] = g count] over the items of
    a dict. *)
Lemma lookup_foldl_items {V W : Type} (g : V → W) (l : list (string * V))
    (m : gmap string W) (p : string) :
  NoDup l.*1 →
  (∀ v, (p, v) ∈ l →
     foldl (λ m (item : string * V), <[item.1 := g item.2]> m) m l !! p
     = Some (g v))
  ∧ (p ∉ l.*1 →
     foldl (λ m (item : string * V), <[item.1 := g item.2]> m) m l !! p
     = m !! p).
Proof.
  revert m. induction l as [|[k v] l IH]; intros m Hnd.
  - split; [by intros v ?%elem_of_nil|done].
  - rewrite fmap_cons in Hnd. apply NoDup_cons in Hnd as [Hk Hnd].
    cbn [foldl fst snd]. destruct (IH (<[k := g v]> m) Hnd) as [IH1 IH2].
    split.
    + intros v' [[= -> ->]|Hin]%elem_of_cons.
      * rewrite IH2 by done. apply lookup_insert_eq.
      * by apply IH1.
    + intros Hp. rewrite fmap_cons in Hp. apply not_elem_of_cons in Hp as [? ?].
      rewrite IH2 by done. by apply lookup_insert_ne.
Qed.

Lemma foldl_items_fmap {V W : Type} (g : V → W) (m : gmap string V) :
  foldl (λ acc (item : string * V), <[item.1 := g item.2]> acc) ∅
        (map_to_list m)
  = g <$> m.
Proof.
  apply map_eq. intros p. rewrite lookup_fmap.
  destruct (lookup_foldl_items g (map_to_list m) ∅ p) as [H1 H2];
    [apply NoDup_fst_map_to_list|].
  destruct (m !! p) as [v|] eqn:Hp; simpl.
  - apply H1. by apply elem_of_map_to_list.
  - rewrite H2; [apply lookup_empty|].
    fold (keys m). rewrite elem_of_keys, Hp. by intros [? ?].
Qed.

Lemma Qsum_counts (n : Q) (cs : list nat) :
  Qsum ((λ c, Qnat c / n) <$> cs) == Qnat (sum_list cs) / n.
Proof.
  induction cs as [|c cs IH]; sum_cons.
  - change (0 == 0 * / n). ring.
  - rewrite IH. cbn [sum_list sum_list_with id]. unfold Qnat.
    rewrite Nat2Z.inj_add, inject_Z_plus. unfold Qdiv. ring.
Qed.

Lemma mass_normalized (n : Q) (counts : gmap string nat) :
  mass ((λ c, Qnat c / n) <$> counts) == Qnat (count_total counts) / n.
Proof.
  unfold mass, count_total. rewrite <- Qsum_counts.
  apply Qsum_perm. rewrite map_to_list_fmap.
  rewrite <- !list_fmap_compose. done.
Qed.

Section SamplePagerank.
Variable raw : nat → N.
Variable corpus : gmap string (gset string).
Variable d : Q.
Hypothesis corpus_is_graph : corpus_graph corpus.
Hypothesis damping_range : 0 <= d <= 1.

(** Lines 94-95: from a page of the corpus the surfer moves to a page of
    the corpus. *)
Lemma next_page_ok (page : string) (k : nat) :
  page ∈ dom corpus →
  ∃ model next,
    transition_model corpus page d = Ok model
    ∧ choices raw k (keys model) (map_to_list model).*2 = Ok next
    ∧ next ∈ dom corpus.
Proof.
  intros [links Hlinks]%elem_of_dom.
  destruct (corpus_is_graph page links Hlinks) as [_ Hsub].
  destruct (transition_model_spec corpus page links d Hsub Hlinks
              damping_range) as (model & Hmodel & Hdom & _ & Hmass).
  destruct (choices_ok raw k (keys model) (map_to_list model).*2)
    as (next & Hnext & Hin).
  - unfold keys. by rewrite !length_fmap.
  - intros Hnil. unfold mass in Hmass. rewrite Hnil in Hmass.
    simpl in Hmass. lra.
  - unfold mass in Hmass. lra.
  - exists model, next. split; [done|]. split; [done|].
    rewrite <- Hdom. by apply elem_of_keys_dom.
Qed.

(** Lines 93-96: the loop never raises, the counters follow the walk, and
    every turn adds one visit. *)
Lemma sample_loop (turns : list nat) :
  ∀ (counts : gmap string nat) (page : string),
    page ∈ dom corpus → dom counts = dom corpus →
    ∃ (counts' : gmap string nat) (page' : string) (rest : list string),
      for_each (sample_step raw corpus d) (counts, page) turns
      = Ok (counts', page')
      ∧ walk_from raw corpus d page turns = Ok rest
      ∧ length rest = length turns
      ∧ dom counts' = dom corpus
      ∧ count_total counts' = (count_total counts + length turns)%nat
      ∧ ∀ p, counts' !! p
             = (λ c, c + visit_count p rest)%nat <$> counts !! p.
Proof.
  induction turns as [|k turns IH]; intros counts page Hpage Hdom.
  - exists counts, page, [].
    split; [done|]. split; [done|]. split; [done|]. split; [done|].
    split; [cbn [length]; lia|].
    intros p. destruct (counts !! p); simpl; [|done].
    f_equal. unfold visit_count. simpl. lia.
  - destruct (next_page_ok page k Hpage) as (model & next & Hm & Hn & Hin).
    destruct (increment_ok counts next) as (c & Hc & Hinc);
      [by rewrite Hdom|].
    destruct (IH (<[next := S c]> counts) next) as
      (counts' & page' & rest & Hloop & Hwalk & Hlen & Hdom' & Htotal & Hat);
      [done| |].
    { rewrite dom_insert_L, Hdom. set_solver. }
    exists counts', page', (next :: rest).
    cbn [for_each walk_from]. unfold sample_step at 1. cbn [fst snd].
    rewrite Hm. cbn [bind]. rewrite Hn. cbn [bind].
    rewrite Hinc. cbn [bind]. rewrite Hloop, Hwalk. cbn [bind].
    split; [done|]. split; [done|].
    split; [by cbn [length]; rewrite Hlen|]. split; [done|]. split.
    + rewrite Htotal, (count_total_increment _ _ _ Hc). cbn [length]. lia.
    + intros p. rewrite Hat, visit_count_cons.
      destruct (decide (next = p)) as [<-|Hne].
      * rewrite lookup_insert_eq, Hc. simpl. f_equal. lia.
      * rewrite lookup_insert_ne by done.
        destruct (counts !! p); simpl; [|done]. f_equal.
Qed.

(** Line 99: the normalisation never raises when [n] is not zero. *)
Lemma normalize_ok (n : Z) (counts : gmap string nat) :
  n ≠ 0%Z →
  for_each
    (λ (normalized : gmap string Q) (item : string * nat),
       let* v := truediv (Qnat item.2) (inject_Z n) in
       Ok (<[item.1 := v]> normalized))
    ∅ (map_to_list counts)
  = Ok ((λ c, Qnat c / inject_Z n) <$> counts).
Proof.
  intros Hn. rewrite <- foldl_items_fmap.
  apply for_each_ok. intros normalized item _.
  rewrite truediv_nonzero; [done|].
  change 0 with (inject_Z 0). by rewrite inject_Z_injective.
Qed.
End SamplePagerank.

(** C5: on a corpus graph with at least one page, for a damping factor in
    [0,1] and a positive sample count [n], [sample_pagerank] returns a
    distribution with an entry for every page of the corpus; the walk has
    [n] visits, the entry of a page is its number of visits divided by [n],
    no entry is negative, and the entries sum to 1. *)
Theorem sample_pagerank_distribution (raw : nat → N)
    (corpus : gmap string (gset string)) (d : Q) (n : Z) :
  corpus_graph corpus → corpus ≠ ∅ → 0 <= d <= 1 → (0 < n)%Z →
  ∃ (walk : list string) (result : gmap string Q),
    sample_walk raw corpus d n = Ok walk
    ∧ length walk = Z.to_nat n
    ∧ sample_pagerank raw corpus d n = Ok result
    ∧ dom result = dom corpus
    ∧ (∀ p, p ∈ dom corpus →
         ∃ v, result !! p = Some v
              ∧ v == Qnat (visit_count p walk) / inject_Z n
              ∧ 0 <= v)
    ∧ mass result == 1.
Proof.
  intros Hgraph Hne Hd Hn.
  assert (0 < inject_Z n) as Hnpos.
  { change 0 with (inject_Z 0). by rewrite <- Zlt_Qlt. }
  destruct (choice_ok raw O (keys corpus)) as (page & Hchoice & Hpage).
  { intros Hnil. apply Hne, map_size_empty_iff.
    by rewrite <- length_keys, Hnil. }
  apply elem_of_keys_dom in Hpage.
  set (zeros := (λ _, O) <$> corpus : gmap string nat).
  assert (dom zeros = dom corpus) as Hzeros by apply dom_fmap_L.
  destruct (increment_ok zeros page) as (c & Hc & Hinc); [by rewrite Hzeros|].
  assert (c = O) as ->.
  { unfold zeros in Hc. rewrite lookup_fmap in Hc.
    destruct (corpus !! page); simpl in Hc; congruence. }
  destruct (sample_loop raw corpus d Hgraph Hd (seq 1 (Z.to_nat (n - 1)))
              (<[page := 1%nat]> zeros) page)
    as (counts & page' & rest & Hloop & Hwalk & Hlen & Hdom & Htotal & Hat);
    [done| |].
  { rewrite dom_insert_L, Hzeros. set_solver. }
  rewrite length_seq in Hlen, Htotal.
  rewrite (count_total_increment _ _ _ Hc) in Htotal.
  unfold zeros in Htotal. rewrite count_total_zeros in Htotal.
  exists (page :: rest), ((λ c, Qnat c / inject_Z n) <$> counts).
  assert (∀ p, p ∈ dom corpus →
            counts !! p = Some (visit_count p (page :: rest))) as Hcounts.
  { intros p Hp. rewrite Hat, visit_count_cons.
    destruct (decide (page = p)) as [<-|Hneq].
    - by rewrite lookup_insert_eq.
    - rewrite lookup_insert_ne by done. unfold zeros. rewrite lookup_fmap.
      apply elem_of_dom in Hp as [links ->]. done. }
  split; [|split; [|split; [|split; [|split]]]].
  - unfold sample_walk. rewrite Hchoice. cbn [bind]. by rewrite Hwalk.
  - simpl. rewrite Hlen. lia.
  - unfold sample_pagerank. fold zeros. rewrite Hchoice. cbn [bind].
    rewrite Hinc. cbn [bind]. rewrite Hloop. cbn [bind fst].
    apply normalize_ok. lia.
  - by rewrite dom_fmap_L.
  - intros p Hp. eexists. split; [|split; [reflexivity|]].
    + by rewrite lookup_fmap, (Hcounts p Hp).
    + apply Qdiv_nonneg; [apply Qnat_nonneg|done].
  - rewrite mass_normalized, Htotal.
    assert (Qnat (1 + Z.to_nat (n - 1)) == inject_Z n) as ->.
    { unfold Qnat. apply inject_Z_injective. lia. }
    field. lra.
Qed.

(** ** [main] *)

(** C8: called with a number of command-line arguments other than one
    ([sys.argv] then has a length other than 2), the program prints nothing
    on standard output, writes the usage message on standard error and
    exits with status 1. *)
Theorem main_usage_error (listdir : string → result (list string))
    (read_file : string → string → result string)
    (findall_href : string → list string) (raw : nat → N)
    (fuel : nat) (argv : list string) :
  length argv ≠ 2%nat →
  ∃ out : outcome,
    main listdir read_file findall_href raw fuel argv = Some out
    ∧ stdout out = []
    ∧ stderr out = [Message "Usage: python pagerank.py corpus"]
    ∧ exit_status out ≠ 0%Z.
Proof.
  intros Hargv. unfold main. rewrite decide_True by done.
  eexists. split; [done|]. by repeat split.
Qed.

(** ** The theorems at concrete inputs *)

Lemma transition_model_distribution_witness :
  corpus_graph hub
  ∧ hub !! "A"%string = Some {[ "B"%string; "C"%string ]}
  ∧ 0 <= DAMPING <= 1
  ∧ ∃ pd : gmap string Q,
      transition_model hub "A" DAMPING = Ok pd
      ∧ dom pd = dom hub
      ∧ (∀ p, p ∈ dom hub →
           ∃ v, pd !! p = Some v
                ∧ 0 <= v
                ∧ v == (if decide (({[ "B"%string; "C"%string ]}
                                     : gset string) = ∅)
                        then 1 / Qnat (size hub)
                        else (1 - DAMPING) / Qnat (size hub)
                             + (if decide (p ∈ ({[ "B"%string; "C"%string ]}
                                                : gset string))
                                then DAMPING
                                     / Qnat (size ({[ "B"%string; "C"%string ]}
                                                   : gset string))
                                else 0)))
      ∧ mass pd == 1.
Proof.
  assert (corpus_graph hub) as Hgraph by by_computation.
  assert (hub !! "A"%string = Some {[ "B"%string; "C"%string ]}) as Hpage
    by (vm_compute; reflexivity).
  assert (0 <= DAMPING <= 1) as Hd by (unfold DAMPING; lra).
  split; [exact Hgraph|]. split; [exact Hpage|]. split; [exact Hd|].
  exact (transition_model_distribution hub "A" _ DAMPING Hgraph Hpage Hd).
Defined.

Lemma iterate_pagerank_terminates_witness :
  hub ≠ ∅
  ∧ 0 <= DAMPING < 1
  ∧ ∃ (passes : nat) (result : gmap string Q),
      ∀ fuel, (passes <= fuel)%nat →
        iterate_pagerank fuel hub DAMPING = Some (Ok result).
Proof.
  assert (hub ≠ ∅) as Hne by by_computation.
  assert (0 <= DAMPING < 1) as Hd by (unfold DAMPING; lra).
  split; [exact Hne|]. split; [exact Hd|].
  exact (iterate_pagerank_terminates hub DAMPING Hne Hd).
Defined.

(** The claim C6 as the specification words it fails in the arithmetic of
    the code: on six pages without links and with damping factor [0.85],
    the first pass meets the convergence test, and the rank it returns for
    a page is [0.16666666666666669], which is not the float [1/6]
    ([0.16666666666666666]).  The decimal literals denote the nearest
    binary64 values, as in Python. *)
Lemma iterate_pagerank_all_dangling_binary64 :
  ∃ result : gmap string float,
    iterate_pagerank_b64 1 six_unlinked 0.85 = Some (Ok result)
    ∧ result !! "1.html"%string = Some 0.16666666666666669%float
    ∧ (0.16666666666666669 =? 1 / float_of_nat 6)%float = false
    ∧ (1 / float_of_nat 6 =? 0.16666666666666666)%float = true.
Proof.
  eexists. split; [vm_compute; reflexivity|].
  split; [vm_compute; reflexivity|].
  split; vm_compute; reflexivity.
Qed.

(** The claim C3 as the specification words it fails: the page [D] has no
    entry in the hub corpus, and the call raises. *)
Lemma transition_model_missing_page_raises :
  ("D"%string ∉ dom hub)
  ∧ transition_model hub "D" DAMPING = Raise (KeyError "D")
  ∧ ¬ ∃ pd, transition_model hub "D" DAMPING = Ok pd.
Proof.
  split; [by_computation|].
  assert (transition_model hub "D" DAMPING = Raise (KeyError "D")) as Hraise
    by (vm_compute; reflexivity).
  split; [exact Hraise|]. intros [pd Hpd]. congruence.
Qed.

Lemma transition_model_missing_page_witness :
  ("x.html"%string ∉ dom demo_graph)
  ∧ transition_model demo_graph "x.html" DAMPING
    = Raise (KeyError "x.html").
Proof.
  assert ("x.html"%string ∉ dom demo_graph) as Hpage by by_computation.
  split; [exact Hpage|].
  exact (transition_model_missing_page demo_graph "x.html" DAMPING Hpage).
Defined.

Lemma iterate_pagerank_distribution_witness :
  corpus_graph hub
  ∧ hub ≠ ∅
  ∧ 0 < DAMPING < 1
  ∧ ∃ (passes : nat) (result : gmap string Q),
      (∀ fuel, (passes <= fuel)%nat →
         iterate_pagerank fuel hub DAMPING = Some (Ok result))
      ∧ dom result = dom hub
      ∧ (∀ p v, result !! p = Some v → 0 <= v)
      ∧ mass result == 1.
Proof.
  assert (corpus_graph hub) as Hgraph by by_computation.
  assert (hub ≠ ∅) as Hne by by_computation.
  assert (0 < DAMPING < 1) as Hd by (unfold DAMPING; lra).
  split; [exact Hgraph|]. split; [exact Hne|]. split; [exact Hd|].
  exact (iterate_pagerank_distribution hub DAMPING Hgraph Hne Hd).
Defined.

Lemma sample_pagerank_distribution_witness :
  corpus_graph hub
  ∧ hub ≠ ∅
  ∧ 0 <= DAMPING <= 1
  ∧ (0 < 20)%Z
  ∧ ∃ (walk : list string) (result : gmap string Q),
      sample_walk demo_raw hub DAMPING 20 = Ok walk
      ∧ length walk = Z.to_nat 20
      ∧ sample_pagerank demo_raw hub DAMPING 20 = Ok result
      ∧ dom result = dom hub
      ∧ (∀ p, p ∈ dom hub →
           ∃ v, result !! p = Some v
                ∧ v == Qnat (visit_count p walk) / inject_Z 20
                ∧ 0 <= v)
      ∧ mass result == 1.
Proof.
  assert (corpus_graph hub) as Hgraph by by_computation.
  assert (hub ≠ ∅) as Hne by by_computation.
  assert (0 <= DAMPING <= 1) as Hd by (unfold DAMPING; lra).
  assert (0 < 20)%Z as Hn by lia.
  split; [exact Hgraph|]. split; [exact Hne|]. split; [exact Hd|].
  split; [exact Hn|].
  exact (sample_pagerank_distribution demo_raw hub DAMPING 20
           Hgraph Hne Hd Hn).
Defined.

Lemma iterate_pagerank_all_dangling_witness :
  isolated ≠ ∅
  ∧ (∀ page links, isolated !! page = Some links → links = ∅)
  ∧ ∃ result : gmap string Q,
      (∀ fuel, (1 <= fuel)%nat →
         iterate_pagerank fuel isolated DAMPING = Some (Ok result))
      ∧ dom result = dom isolated
      ∧ ∀ page, page ∈ dom isolated →
          ∃ v, result !! page = Some v ∧ v == 1 / Qnat (size isolated).
Proof.
  assert (isolated ≠ ∅) as Hne by by_computation.
  assert (map_Forall (λ _ links, links = ∅) isolated) as Hdangling
    by by_computation.
  split; [exact Hne|]. split; [exact Hdangling|].
  exact (iterate_pagerank_all_dangling isolated DAMPING Hne Hdangling).
Defined.

Lemma iterate_pagerank_hub_symmetric_witness :
  0 < DAMPING < 1
  ∧ ∃ (passes : nat) (result : gmap string Q) (rank_B rank_C : Q),
      (∀ fuel, (passes <= fuel)%nat →
         iterate_pagerank fuel hub DAMPING = Some (Ok result))
      ∧ result !! "B"%string = Some rank_B
      ∧ result !! "C"%string = Some rank_C
      ∧ rank_B == rank_C.
Proof.
  assert (0 < DAMPING < 1) as Hd by (unfold DAMPING; lra).
  split; [exact Hd|].
  exact (iterate_pagerank_hub_symmetric DAMPING Hd).
Defined.

Lemma main_usage_error_witness :
  length ["pagerank.py"%string] ≠ 2%nat
  ∧ ∃ out : outcome,
      main demo_listdir demo_read_file demo_findall_href demo_raw 5
           ["pagerank.py"%string] = Some out
      ∧ stdout out = []
      ∧ stderr out = [Message "Usage: python pagerank.py corpus"]
      ∧ exit_status out ≠ 0%Z.
Proof.
  assert (length ["pagerank.py"%string] ≠ 2%nat) as Hargv by (simpl; lia).
  split; [exact Hargv|].
  exact (main_usage_error demo_listdir demo_read_file demo_findall_href
           demo_raw 5 ["pagerank.py"%string] Hargv).
Defined.

(** * Further properties of the code *)

(** ** [transition_model]: links that leave the corpus *)

(** A loop whose body raises on the elements outside [good], and keeps an
    invariant on the others, raises at an element outside [good] as soon as
    the list has one. *)
Lemma for_each_raises {A S : Type} (I : S → Prop) (good : A → Prop)
    `{∀ x, Decision (good x)} (err : A → exn)
    (body : S → A → result S) (l : list A) (s : S) :
  I s →
  (∀ s x, I s → x ∈ l → good x → ∃ s', body s x = Ok s' ∧ I s') →
  (∀ s x, I s → x ∈ l → ¬ good x → body s x = Raise (err x)) →
  (∃ x, x ∈ l ∧ ¬ good x) →
  ∃ x, x ∈ l ∧ ¬ good x ∧ for_each body s l = Raise (err x).
Proof.
  revert s. induction l as [|y l IH]; intros s Hs Hgood Hbad [x [Hx Hnx]].
  - by apply elem_of_nil in Hx.
  - cbn [for_each]. destruct (decide (good y)) as [Hy|Hy].
    + destruct (Hgood s y Hs) as (s' & -> & Hs'); [left|done|]. cbn [bind].
      destruct (IH s') as (z & Hz & Hnz & Hraise); [done| | | |].
      * intros s1 z Hs1 Hz. apply Hgood; [done|by right].
      * intros s1 z Hs1 Hz. apply Hbad; [done|by right].
      * exists x. split; [|done].
        apply elem_of_cons in Hx as [->|Hx]; [done|done].
      * exists z. split; [by right|]. by split.
    + exists y. split; [left|]. split; [done|].
      by rewrite (Hbad s y Hs) by (done || left).
Qed.

(** On a page with a link to a page that is not a key of the corpus,
    line 75 raises [KeyError] for such a link. *)
Theorem transition_model_link_outside (corpus : gmap string (gset string))
    (page : string) (links : gset string) (d : Q) :
  corpus !! page = Some links →
  ¬ links ⊆ dom corpus →
  ∃ link,
    link ∈ links ∧ (link ∉ dom corpus)
    ∧ transition_model corpus page d = Raise (KeyError link).
Proof.
  intros Hpage Hout. unfold transition_model.
  rewrite (getitem_Some _ _ _ Hpage). cbn [bind].
  assert (links ≠ ∅) as Hne by (intros ->; apply Hout; set_solver).
  rewrite decide_False by done. rewrite fill_loop. cbn [bind].
  destruct (for_each_raises
              (λ pd : gmap string Q, dom pd = dom corpus)
              (λ link, link ∈ dom corpus) KeyError
              (λ (pd : gmap string Q) link,
                 let* old := getitem pd link in
                 let* inc := truediv d (Qnat (size links)) in
                 Ok (<[link := old + inc]> pd))
              (elements links)
              (foldl (λ pd p, <[p := (1 - d) / Qnat (size corpus)]> pd)
                     ∅ (keys corpus)))
    as (link & Hlink & Hnot & Hraise).
  - apply dom_fill.
  - intros pd link Hdom _ Hin. rewrite <- Hdom in Hin.
    rewrite getitem_rank_at by done. cbn [bind].
    rewrite truediv_Qnat by (by apply links_size_nonzero). cbn [bind].
    eexists. split; [done|]. rewrite dom_insert_L. set_solver.
  - intros pd link Hdom _ Hnin. rewrite <- Hdom in Hnin.
    apply not_elem_of_dom in Hnin. by rewrite (getitem_None _ _ Hnin).
  - destruct (decide (set_Forall (λ link, link ∈ dom corpus) links))
      as [Hall|Hex].
    + exfalso. apply Hout. intros link Hl. by apply Hall.
    + apply not_set_Forall_Exists in Hex as (link & Hl & Hnl); [|apply _].
      exists link. split; [by apply elem_of_elements|done].
  - exists link. split; [by apply elem_of_elements|]. by split.
Qed.

(** ** [iterate_pagerank]: errors, the empty corpus, the last pass *)

(** The loop raises no exception, whatever the corpus: it returns a dict or
    keeps running. *)
Lemma iterate_loop_never_raises (corpus : gmap string (gset string)) (d : Q)
    (fuel : nat) :
  ∀ (pagerank new_rank : gmap string Q) (e : exn),
    dom pagerank = dom corpus → dom new_rank = dom corpus →
    iterate_loop fuel corpus d (size corpus) pagerank new_rank
    ≠ Some (Raise e).
Proof.
  induction fuel as [|fuel IH]; intros pagerank new_rank e Hdom Hnew; [done|].
  destruct (iterate_loop_turn corpus d fuel pagerank new_rank Hdom Hnew)
    as (converged & _ & ->).
  destruct converged; [done|].
  apply IH; by apply dom_relaxed.
Qed.

(** [iterate_pagerank] raises no exception on any corpus and for any
    damping factor, also when links leave the corpus. *)
Theorem iterate_pagerank_never_raises (corpus : gmap string (gset string))
    (d : Q) (fuel : nat) :
  iterate_pagerank fuel corpus d = None
  ∨ ∃ result, iterate_pagerank fuel corpus d = Some (Ok result).
Proof.
  rewrite iterate_pagerank_unfold.
  destruct (iterate_loop fuel corpus d (size corpus) (uniform corpus)
              ((λ _, 0) <$> corpus)) as [[result|e]|] eqn:Hrun.
  - right. eauto.
  - exfalso. revert Hrun.
    apply iterate_loop_never_raises; [apply dom_uniform|apply dom_fmap_L].
  - by left.
Qed.

(** On the empty corpus [iterate_pagerank] divides by nothing: the first
    pass meets the convergence test and the empty dict is returned. *)
Theorem iterate_pagerank_empty (d : Q) (fuel : nat) :
  iterate_pagerank (S fuel) ∅ d = Some (Ok ∅).
Proof.
  rewrite iterate_pagerank_unfold.
  destruct (iterate_loop_turn ∅ d fuel (uniform ∅)
              ((λ _, 0) <$> (∅ : gmap string (gset string))))
    as (converged & Hiff & ->); [apply dom_uniform|apply dom_fmap_L|].
  assert (converged = true) as ->.
  { apply Hiff. intros p Hp. rewrite dom_empty_L in Hp.
    by apply not_elem_of_empty in Hp. }
  reflexivity.
Qed.

(** The dict the loop returns is the outcome of a pass over a dict from
    which no entry moved by more than the tolerance. *)
Lemma iterate_loop_last_pass (corpus : gmap string (gset string)) (d : Q)
    (fuel : nat) :
  ∀ (pagerank new_rank result : gmap string Q),
    dom pagerank = dom corpus → dom new_rank = dom corpus →
    iterate_loop fuel corpus d (size corpus) pagerank new_rank
    = Some (Ok result) →
    ∃ previous other : gmap string Q,
      dom previous = dom corpus ∧ dom other = dom corpus
      ∧ result = relaxed corpus d previous other
      ∧ ∀ p, p ∈ dom corpus →
          Qabs (rank_at result p - rank_at previous p) <= tolerance.
Proof.
  induction fuel as [|fuel IH]; intros pagerank new_rank result Hdom Hnew;
    [done|].
  destruct (iterate_loop_turn corpus d fuel pagerank new_rank Hdom Hnew)
    as (converged & Hiff & ->).
  destruct converged.
  - intros [= <-]. exists pagerank, new_rank.
    split; [done|]. split; [done|]. split; [done|]. by apply Hiff.
  - apply IH; by apply dom_relaxed.
Qed.

(** The ranks [iterate_pagerank] returns satisfy the equation of line 126
    up to a total error, over all pages, of [|d| * N * 0.001]. *)
Theorem iterate_pagerank_residual (corpus : gmap string (gset string))
    (d : Q) (fuel : nat) (result : gmap string Q) :
  corpus ≠ ∅ →
  iterate_pagerank fuel corpus d = Some (Ok result) →
  distance corpus (rank_at result) (relax corpus d (rank_at result))
  <= Qabs d * (Qnat (size corpus) * tolerance).
Proof.
  intros Hne Hrun. rewrite iterate_pagerank_unfold in Hrun.
  pose proof (size_nonzero_of_nonempty corpus Hne) as HN.
  apply iterate_loop_last_pass in Hrun
    as (previous & other & Hprev & Hother & -> & Hclose);
    [|apply dom_uniform|apply dom_fmap_L].
  set (result := relaxed corpus d previous other) in *.
  assert (distance corpus (rank_at result) (relax corpus d (rank_at result))
          <= Qabs d * distance corpus (rank_at previous) (rank_at result))
    as Hcontract.
  { eapply Qle_trans; [|by apply relax_contraction].
    unfold distance. apply Qle_lteq. right.
    apply Qsum_ext. intros p Hp%elem_of_keys_dom.
    assert (rank_at result p = relax corpus d (rank_at previous) p) as ->
      by (by apply rank_at_relaxed).
    reflexivity. }
  eapply Qle_trans; [exact Hcontract|].
  apply Qmult_le_l_nonneg; [apply Qabs_nonneg|].
  unfold distance.
  eapply Qle_trans.
  - apply (Qsum_le _ (λ _, tolerance)).
    intros p Hp%elem_of_keys_dom. by apply Hclose.
  - rewrite Qsum_const, length_keys. apply Qle_refl.
Qed.

(** ** [iterate_pagerank]: corpora on which the uniform ranks are
    stationary *)

(** When the shares that flow into a page add up to 1, a pass over ranks
    [1/N] gives that page [1/N] again. *)
Lemma relax_uniform_stationary (corpus : gmap string (gset string)) (d : Q)
    (x : string → Q) (p : string) :
  size corpus ≠ O →
  Qsum ((λ item : string * gset string, weight (size corpus) p item.2)
          <$> map_to_list corpus) == 1 →
  (∀ q, q ∈ dom corpus → x q == 1 / Qnat (size corpus)) →
  relax corpus d x p == 1 / Qnat (size corpus).
Proof.
  intros HN Hin Hx. pose proof (Qnat_pos _ HN).
  unfold relax. rewrite total_of_weight by done.
  rewrite (Qsum_ext _
             (λ item : string * gset string,
                1 / Qnat (size corpus) * weight (size corpus) p item.2)).
  - rewrite Qsum_scale, Hin. field. lra.
  - intros [q links] Hitem%elem_of_map_to_list. cbn [fst snd].
    rewrite Hx; [ring|]. apply elem_of_dom. eauto.
Qed.

(** In exact arithmetic, on a corpus with at least one page in which the
    shares of rank that flow into each page (line 124) add up to 1 -- a
    cycle, or pages without any link -- the first pass of
    [iterate_pagerank] meets the convergence test and every page gets
    [1/N].  In binary64 the value is [1/N] up to rounding only, as the
    evaluation of [iterate_pagerank_b64] on six pages shows. *)
Theorem iterate_pagerank_uniform_stationary
    (corpus : gmap string (gset string)) (d : Q) :
  corpus ≠ ∅ →
  (∀ p, p ∈ dom corpus →
     Qsum ((λ item : string * gset string, weight (size corpus) p item.2)
             <$> map_to_list corpus) == 1) →
  ∃ result : gmap string Q,
    (∀ fuel, (1 <= fuel)%nat →
       iterate_pagerank fuel corpus d = Some (Ok result))
    ∧ ∀ page, page ∈ dom corpus →
        ∃ v, result !! page = Some v ∧ v == 1 / Qnat (size corpus).
Proof.
  intros Hne Hin.
  pose proof (size_nonzero_of_nonempty corpus Hne) as HN.
  set (zeros := (λ _, 0) <$> corpus : gmap string Q).
  assert (dom zeros = dom corpus) as Hzeros by apply dom_fmap_L.
  assert (∀ p, p ∈ dom corpus →
            rank_at (relaxed corpus d (uniform corpus) zeros) p
            == 1 / Qnat (size corpus)) as Hrelaxed.
  { intros p Hp. rewrite rank_at_relaxed by done.
    apply relax_uniform_stationary; [done|by apply Hin|].
    intros q Hq. by rewrite rank_at_uniform. }
  exists (relaxed corpus d (uniform corpus) zeros). split.
  - intros fuel Hfuel.
    apply (iterate_pagerank_more_fuel corpus d 1 fuel); [done|].
    rewrite iterate_pagerank_unfold. fold zeros.
    destruct (iterate_loop_turn corpus d O (uniform corpus) zeros)
      as (converged & Hiff & ->); [apply dom_uniform|done|].
    destruct converged; [done|].
    assert (false = true); [|done]. apply Hiff. intros p Hp.
    rewrite Hrelaxed, rank_at_uniform by done.
    assert (1 / Qnat (size corpus) - 1 / Qnat (size corpus) == 0) as ->
      by ring.
    by vm_compute.
  - intros page Hpage. eexists. split.
    + by rewrite lookup_relaxed, decide_True.
    + rewrite <- (rank_at_relaxed corpus d (uniform corpus) zeros) by done.
      by apply Hrelaxed.
Qed.

(** ** [iterate_pagerank]: bounds on the ranks *)

Lemma relax_floor (corpus : gmap string (gset string)) (d : Q)
    (x : string → Q) (p : string) :
  size corpus ≠ O → 0 <= d →
  (∀ q, q ∈ dom corpus → 0 <= x q) →
  (1 - d) / Qnat (size corpus) <= relax corpus d x p.
Proof.
  intros HN Hd Hx. unfold relax.
  assert (0 <= total_of corpus (size corpus) x p).
  { rewrite total_of_weight by done. apply Qsum_nonneg.
    intros [q links] Hitem%elem_of_map_to_list. cbn [fst snd].
    apply Qmult_le_0_compat; [apply weight_nonneg|].
    apply Hx, elem_of_dom. eauto. }
  assert (0 <= d * total_of corpus (size corpus) x p)
    by (by apply Qmult_le_0_compat).
  lra.
Qed.

(** On a corpus graph with at least one page and for a damping factor in
    [0,1], every rank [iterate_pagerank] returns lies between the share
    [(1 - d)/N] of the random jump and 1. *)
Theorem iterate_pagerank_bounds (corpus : gmap string (gset string))
    (d : Q) (fuel : nat) (result : gmap string Q) :
  corpus_graph corpus → corpus ≠ ∅ → 0 <= d <= 1 →
  iterate_pagerank fuel corpus d = Some (Ok result) →
  ∀ p v, result !! p = Some v →
    (1 - d) / Qnat (size corpus) <= v <= 1.
Proof.
  intros Hgraph Hne Hd Hrun.
  pose proof (size_nonzero_of_nonempty corpus Hne) as HN.
  pose proof (Qnat_pos _ HN) as HNpos.
  apply (iterate_pagerank_invariant corpus d
           (λ r, (dom r = dom corpus
                  ∧ (∀ p, p ∈ dom corpus → 0 <= rank_at r p)
                  ∧ mass r == 1)
                 ∧ ∀ p, p ∈ dom corpus →
                     (1 - d) / Qnat (size corpus) <= rank_at r p))
    in Hrun as [(Hdom & Hpos & Hmass) Hfloor].
  - intros p v Hv.
    assert (p ∈ dom corpus) as Hp by (rewrite <- Hdom; apply elem_of_dom; eauto).
    rewrite <- (rank_at_Some _ _ _ Hv). split; [by apply Hfloor|].
    rewrite <- Hmass, (mass_keys _ corpus) by done.
    apply (Qsum_term_le (rank_at result)).
    + intros q Hq%elem_of_keys_dom. by apply Hpos.
    + by apply elem_of_keys_dom.
  - tauto.
  - intros r nr [Hr _] Hnr. split; [by apply relaxed_distribution|].
    intros p Hp. rewrite rank_at_relaxed by done.
    apply relax_floor; [done|lra|]. by destruct Hr as (_ & Hpos & _).
  - split; [split; [apply dom_uniform|split; [|by apply mass_uniform]]|].
    + intros p Hp. rewrite rank_at_uniform by done. apply Qinv_Qnat_nonneg.
    + intros p Hp. rewrite rank_at_uniform by done.
      unfold Qdiv. apply Qmult_le_compat_r; [lra|].
      apply Qlt_le_weak, Qinv_lt_0_compat. done.
Qed.

(** ** [sample_pagerank]: degenerate inputs *)

(** Lines 89-91 on a corpus with at least one page: a start page is drawn
    among the keys and its counter is set to 1. *)
Lemma sample_start (raw : nat → N) (corpus : gmap string (gset string)) :
  corpus ≠ ∅ →
  ∃ start,
    choice raw 0 (keys corpus) = Ok start
    ∧ start ∈ dom corpus
    ∧ increment ((λ _, O) <$> corpus) start
      = Ok (<[start := 1%nat]> ((λ _, O) <$> corpus)).
Proof.
  intros Hne.
  destruct (choice_ok raw O (keys corpus)) as (start & Hchoice & Hstart).
  { intros Hnil. apply Hne, map_size_empty_iff.
    by rewrite <- length_keys, Hnil. }
  apply elem_of_keys_dom in Hstart.
  exists start. split; [done|]. split; [done|].
  destruct (increment_ok ((λ _, O) <$> corpus) start) as (c & Hc & ->).
  { by rewrite dom_fmap_L. }
  rewrite lookup_fmap in Hc.
  destruct (corpus !! start); simpl in Hc; congruence.
Qed.

(** On the empty corpus line 90 has nothing to choose from:
    [sample_pagerank] raises [IndexError], whatever the sample count. *)
Theorem sample_pagerank_empty (raw : nat → N) (d : Q) (n : Z) :
  sample_pagerank raw ∅ d n = Raise IndexError.
Proof. reflexivity. Qed.

(** With a sample count of 0 and a corpus with at least one page, the
    normalisation of line 99 divides by zero: [sample_pagerank] raises
    [ZeroDivisionError]. *)
Theorem sample_pagerank_zero_samples (raw : nat → N)
    (corpus : gmap string (gset string)) (d : Q) :
  corpus ≠ ∅ → sample_pagerank raw corpus d 0 = Raise ZeroDivisionError.
Proof.
  intros Hne. destruct (sample_start raw corpus Hne)
    as (start & Hchoice & Hstart & Hinc).
  unfold sample_pagerank. rewrite Hchoice. cbn [bind].
  rewrite Hinc. cbn [bind]. change (Z.to_nat (0 - 1)) with O.
  cbn [seq for_each bind fst].
  destruct (map_to_list (<[start := 1%nat]> ((λ _, O) <$> corpus)))
    as [|item items] eqn:Hitems.
  - apply map_to_list_empty_iff in Hitems.
    by apply insert_non_empty in Hitems.
  - cbn [for_each]. by rewrite truediv_zero.
Qed.

(** With a sample count of 1, or a negative one, [sample_pagerank] makes no
    move and never reads a link: on any corpus with at least one page it
    returns [1/n] for the start page and 0 for every other page. *)
Theorem sample_pagerank_no_move (raw : nat → N)
    (corpus : gmap string (gset string)) (d : Q) (n : Z) :
  corpus ≠ ∅ → (n <= 1)%Z → n ≠ 0%Z →
  ∃ (start : string) (result : gmap string Q),
    choice raw 0 (keys corpus) = Ok start
    ∧ start ∈ dom corpus
    ∧ sample_pagerank raw corpus d n = Ok result
    ∧ dom result = dom corpus
    ∧ ∀ p, p ∈ dom corpus →
        ∃ v, result !! p = Some v
             ∧ v == (if decide (p = start) then 1 / inject_Z n else 0).
Proof.
  intros Hne Hn1 Hn0. destruct (sample_start raw corpus Hne)
    as (start & Hchoice & Hstart & Hinc).
  exists start. eexists. split; [done|]. split; [done|]. split.
  { unfold sample_pagerank. rewrite Hchoice. cbn [bind].
    rewrite Hinc. cbn [bind].
    replace (Z.to_nat (n - 1)) with O by lia.
    cbn [seq for_each bind fst]. by apply normalize_ok. }
  split.
  { rewrite dom_fmap_L, dom_insert_L, dom_fmap_L. set_solver. }
  intros p [links Hp]%elem_of_dom. rewrite lookup_fmap.
  destruct (decide (p = start)) as [->|Hneq].
  - rewrite lookup_insert_eq. eexists. split; [done|]. reflexivity.
  - rewrite lookup_insert_ne, lookup_fmap, Hp by done.
    eexists. split; [done|]. unfold Qdiv. change (Qnat 0) with 0. ring.
Qed.

(** On a corpus graph with at least one page, for a damping factor in [0,1]
    and a positive sample count, [sample_pagerank] returns a dict over the
    pages of the corpus. *)
Lemma sample_pagerank_ok (raw : nat → N)
    (corpus : gmap string (gset string)) (d : Q) (n : Z) :
  corpus_graph corpus → corpus ≠ ∅ → 0 <= d <= 1 → (0 < n)%Z →
  ∃ result : gmap string Q,
    sample_pagerank raw corpus d n = Ok result ∧ dom result = dom corpus.
Proof.
  intros Hgraph Hne Hd Hn. destruct (sample_start raw corpus Hne)
    as (start & Hchoice & Hstart & Hinc).
  destruct (sample_loop raw corpus d Hgraph Hd (seq 1 (Z.to_nat (n - 1)))
              (<[start := 1%nat]> ((λ _, O) <$> corpus)) start)
    as (counts & page' & rest & Hloop & _ & _ & Hdom & _); [done| |].
  { rewrite dom_insert_L, dom_fmap_L. set_solver. }
  exists ((λ c, Qnat c / inject_Z n) <$> counts). split.
  - unfold sample_pagerank. rewrite Hchoice. cbn [bind].
    rewrite Hinc. cbn [bind]. rewrite Hloop. cbn [bind fst].
    apply normalize_ok. lia.
  - by rewrite dom_fmap_L.
Qed.

(** ** [crawl]: what the graph is, and when there is one *)

Section CrawlGraph.
Variable read_file : string → string → result string.
Variable findall_href : string → list string.

(** The first loop of [crawl] (lines 33-39), entry by entry: an HTML name of
    the listing was read and has its extracted links without itself; any
    other name keeps what the dict had. *)
Lemma crawl_extract_char (directory : string) (names : list string) :
  ∀ acc pages : gmap string (gset string),
    for_each
      (λ (pages : gmap string (gset string)) filename,
         if negb (endswith filename ".html") then Ok pages
         else
           let* contents := read_file directory filename in
           let links := findall_href contents in
           Ok (<[filename := list_to_set links ∖ {[filename]}]> pages))
      acc names = Ok pages →
    ∀ f,
      (f ∈ names → endswith f ".html" = true →
       ∃ contents, read_file directory f = Ok contents
                   ∧ pages !! f
                     = Some (list_to_set (findall_href contents) ∖ {[f]}))
      ∧ (¬ (f ∈ names ∧ endswith f ".html" = true) →
         pages !! f = acc !! f).
Proof.
  induction names as [|x names IH]; intros acc pages.
  - intros [= <-] f. split; [by intros ?%elem_of_nil|done].
  - cbn [for_each].
    destruct (endswith x ".html") eqn:Hx; cbn [negb bind].
    + destruct (read_file directory x) as [contents|e] eqn:Hread;
        cbn [bind]; [|done].
      intros Hloop f. destruct (IH _ _ Hloop f) as [IH1 IH2].
      destruct (decide (f ∈ names ∧ endswith f ".html" = true)) as [[? ?]|Hf].
      * split; [by intros; apply IH1|]. intros Hn. exfalso. apply Hn.
        split; [by right|done].
      * rewrite IH2 by done. split.
        -- intros [->|Hin]%elem_of_cons Hhtml; [|exfalso; by apply Hf].
           exists contents. split; [done|]. apply lookup_insert_eq.
        -- intros Hn. apply lookup_insert_ne. intros <-. apply Hn.
           split; [left|done].
    + intros Hloop f. destruct (IH _ _ Hloop f) as [IH1 IH2]. split.
      * intros [->|Hin]%elem_of_cons Hhtml; [congruence|by apply IH1].
      * intros Hn. apply IH2. intros [? ?]. apply Hn. split; [by right|done].
Qed.

(** The first loop returns when every HTML name of the listing can be
    read. *)
Lemma crawl_extract_total (directory : string) (names : list string) :
  (∀ f, f ∈ names → endswith f ".html" = true →
     ∃ contents, read_file directory f = Ok contents) →
  ∀ acc : gmap string (gset string),
    ∃ pages,
      for_each
        (λ (pages : gmap string (gset string)) filename,
           if negb (endswith filename ".html") then Ok pages
           else
             let* contents := read_file directory filename in
             let links := findall_href contents in
             Ok (<[filename := list_to_set links ∖ {[filename]}]> pages))
        acc names = Ok pages.
Proof.
  induction names as [|x names IH]; intros Hread acc; [by exists acc|].
  cbn [for_each].
  destruct (endswith x ".html") eqn:Hx; cbn [negb bind].
  - destruct (Hread x) as [contents ->]; [left|done|]. cbn [bind].
    apply IH. intros f Hf. apply Hread. by right.
  - apply IH. intros f Hf. apply Hread. by right.
Qed.

(** The second loop returns on every dict. *)
Lemma crawl_filter_total (pages : gmap string (gset string)) :
  for_each
    (λ (pages : gmap string (gset string)) filename,
       let* links := getitem pages filename in
       Ok (<[filename := filter (λ link, link ∈ dom pages) links]> pages))
    pages (keys pages)
  = Ok ((λ links, filter (λ link, link ∈ dom pages) links) <$> pages).
Proof.
  destruct (crawl_filter_loop (λ _, Raise OSError) read_file findall_href
              (dom pages) (keys pages) pages)
    as (pages' & -> & Hpages');
    [apply NoDup_keys|done|by intros k ?%elem_of_keys_dom|].
  f_equal. apply map_eq. intros p. rewrite Hpages', lookup_fmap.
  destruct (decide (p ∈ keys pages)) as [Hin|Hnin]; [done|].
  rewrite elem_of_keys in Hnin. apply eq_None_not_Some in Hnin.
  by rewrite Hnin.
Qed.

Section Listing.
Variable listdir : string → result (list string).

(** The graph of [crawl], entry by entry. *)
Lemma crawl_char (directory : string) (g : gmap string (gset string)) :
  crawl listdir read_file findall_href directory = Ok g →
  ∃ names,
    listdir directory = Ok names
    ∧ (∀ f, f ∈ dom g ↔ f ∈ names ∧ endswith f ".html" = true)
    ∧ ∀ f links, g !! f = Some links →
        ∃ contents,
          read_file directory f = Ok contents
          ∧ links = filter (λ link, link ∈ dom g)
                           (list_to_set (findall_href contents) ∖ {[f]}).
Proof.
  unfold crawl. destruct (listdir directory) as [names|e]; cbn [bind]; [|done].
  match goal with
  | |- context [bind ?loop _] => destruct loop as [pages|e] eqn:Hloop
  end; cbn [bind]; [|done].
  rewrite crawl_filter_total. intros [= <-].
  pose proof (crawl_extract_char directory names ∅ pages Hloop) as Hchar.
  exists names. split; [done|]. rewrite dom_fmap_L. split.
  - intros f. destruct (Hchar f) as [H1 H2]. split.
    + intros [links Hf]%elem_of_dom.
      destruct (decide (f ∈ names ∧ endswith f ".html" = true)) as [|Hn];
        [done|].
      rewrite (H2 Hn), lookup_empty in Hf. done.
    + intros [Hin Hhtml]. destruct (H1 Hin Hhtml) as (c & _ & Hf).
      apply elem_of_dom. eauto.
  - intros f links. rewrite lookup_fmap.
    destruct (pages !! f) as [links0|] eqn:Hf; cbn; [|done].
    intros [= <-]. destruct (Hchar f) as [H1 H2].
    destruct (decide (f ∈ names ∧ endswith f ".html" = true))
      as [[Hin Hhtml]|Hn].
    + destruct (H1 Hin Hhtml) as (c & Hc & Hf'). exists c. split; [done|].
      congruence.
    + rewrite (H2 Hn), lookup_empty in Hf. done.
Qed.

(** The pages of the graph are exactly the names of the listing that end
    in [".html"]. *)
Theorem crawl_keys (directory : string) (g : gmap string (gset string)) :
  crawl listdir read_file findall_href directory = Ok g →
  ∃ names,
    listdir directory = Ok names
    ∧ ∀ f, f ∈ dom g ↔ f ∈ names ∧ endswith f ".html" = true.
Proof.
  intros (names & Hnames & Hkeys & _)%crawl_char. eauto.
Qed.

(** The links of a page of the graph are exactly the extracted targets of
    its file that are pages of the graph other than itself. *)
Theorem crawl_links (directory : string) (g : gmap string (gset string))
    (page : string) (links : gset string) :
  crawl listdir read_file findall_href directory = Ok g →
  g !! page = Some links →
  ∃ contents,
    read_file directory page = Ok contents
    ∧ ∀ link, link ∈ links ↔
        link ∈ findall_href contents ∧ link ≠ page ∧ link ∈ dom g.
Proof.
  intros (names & _ & _ & Hlinks)%crawl_char Hpage.
  destruct (Hlinks page links Hpage) as (contents & Hread & ->).
  exists contents. split; [done|]. intros link.
  rewrite elem_of_filter, elem_of_difference, elem_of_list_to_set,
    elem_of_singleton. tauto.
Qed.

Lemma crawl_returns_when (directory : string) :
  (∃ g, crawl listdir read_file findall_href directory = Ok g)
  ↔ ∃ names,
      listdir directory = Ok names
      ∧ ∀ f, f ∈ names → endswith f ".html" = true →
          ∃ contents, read_file directory f = Ok contents.
Proof.
  split.
  - intros [g Hg]. unfold crawl in Hg.
    destruct (listdir directory) as [names|e]; cbn [bind] in Hg; [|done].
    exists names. split; [done|].
    match type of Hg with
    | context [bind ?loop _] => destruct loop as [pages|e] eqn:Hloop
    end; cbn [bind] in Hg; [|done].
    intros f Hin Hhtml.
    destruct (crawl_extract_char directory names ∅ pages Hloop f)
      as [H1 _].
    destruct (H1 Hin Hhtml) as (c & Hc & _). eauto.
  - intros (names & Hnames & Hread). unfold crawl. rewrite Hnames.
    destruct (crawl_extract_total directory names Hread ∅)
      as [pages Hpages].
    cbn [bind] in *. rewrite Hpages.
    pose proof (crawl_filter_total pages) as Hfilter.
    cbn [bind] in *. rewrite Hfilter. eauto.
Qed.

(** [crawl] returns a graph exactly when the directory can be listed and
    every listed name that ends in [".html"] can be read. *)
Theorem crawl_returns_iff (directory : string) :
  (∃ g, crawl listdir read_file findall_href directory = Ok g)
  ↔ ∃ names,
      listdir directory = Ok names
      ∧ ∀ f, f ∈ names → endswith f ".html" = true →
          ∃ contents, read_file directory f = Ok contents.
Proof. apply crawl_returns_when. Qed.

(** The graph of [crawl] is a corpus graph. *)
Lemma crawl_corpus_graph (directory : string)
    (g : gmap string (gset string)) :
  crawl listdir read_file findall_href directory = Ok g → corpus_graph g.
Proof.
  intros (names & _ & _ & Hlinks)%crawl_char page links Hpage.
  destruct (Hlinks page links Hpage) as (contents & _ & ->). split.
  - rewrite elem_of_filter. set_solver.
  - intros link. rewrite elem_of_filter. tauto.
Qed.
End Listing.

(** The graph does not depend on the order of the directory listing, nor on
    repetitions in it: two listings with the same names give the same
    graph. *)
Theorem crawl_listing_order (listdir listdir' : string → result (list string))
    (directory : string) (names names' : list string)
    (g : gmap string (gset string)) :
  listdir directory = Ok names →
  listdir' directory = Ok names' →
  (∀ f, f ∈ names ↔ f ∈ names') →
  crawl listdir read_file findall_href directory = Ok g →
  crawl listdir' read_file findall_href directory = Ok g.
Proof.
  intros Hnames Hnames' Hsame Hg.
  destruct (proj2 (crawl_returns_when listdir' directory)) as [g' Hg'].
  { exists names'. split; [done|]. intros f Hf Hhtml.
    destruct (proj1 (crawl_returns_when listdir directory))
      as (names0 & Hnames0 & Hread); [eauto|].
    rewrite Hnames in Hnames0. injection Hnames0 as <-.
    apply Hread; [by apply Hsame|done]. }
  rewrite Hg'. f_equal.
  destruct (crawl_char listdir directory g Hg)
    as (n0 & Hn0 & Hkeys & Hlinks).
  destruct (crawl_char listdir' directory g' Hg')
    as (n0' & Hn0' & Hkeys' & Hlinks').
  rewrite Hnames in Hn0. injection Hn0 as <-.
  rewrite Hnames' in Hn0'. injection Hn0' as <-.
  assert (dom g' = dom g) as Hdom.
  { apply set_eq. intros f. rewrite Hkeys, Hkeys', Hsame. tauto. }
  apply map_eq. intros f.
  destruct (g' !! f) as [links'|] eqn:Hf'.
  - assert (f ∈ dom g) as [links Hf]%elem_of_dom.
    { rewrite <- Hdom. apply elem_of_dom. eauto. }
    destruct (Hlinks f links Hf) as (c & Hc & ->).
    destruct (Hlinks' f links' Hf') as (c' & Hc' & ->).
    rewrite Hf, Hdom. congruence.
  - symmetry. apply not_elem_of_dom. rewrite <- Hdom.
    by apply not_elem_of_dom.
Qed.

(** [transition_model] raises no exception on a page of a graph that
    [crawl] returned: it gives a distribution over the pages of the graph,
    of total mass 1. *)
Theorem crawl_transition_model (listdir : string → result (list string))
    (directory : string) (g : gmap string (gset string))
    (page : string) (d : Q) :
  crawl listdir read_file findall_href directory = Ok g →
  page ∈ dom g → 0 <= d <= 1 →
  ∃ pd : gmap string Q,
    transition_model g page d = Ok pd ∧ dom pd = dom g ∧ mass pd == 1.
Proof.
  intros Hg [links Hpage]%elem_of_dom Hd.
  destruct (crawl_corpus_graph listdir directory g Hg page links Hpage)
    as [_ Hsub].
  destruct (transition_model_spec g page links d Hsub Hpage Hd)
    as (pd & Hpd & Hdom & _ & Hmass).
  eauto.
Qed.
End CrawlGraph.

(** ** [main]: the reports *)

#[local] Instance string_le_total : Total string_le.
Proof. intros a b. apply String.leb_total. Qed.

Lemma omap_all_Some {A B : Type} (f : A → option B) (g : A → B)
    (l : list A) :
  (∀ x, x ∈ l → f x = Some (g x)) → omap f l = g <$> l.
Proof.
  induction l as [|x l IH]; intros Hf; [done|].
  cbn [omap list_omap]. rewrite (Hf x) by left. rewrite fmap_cons.
  f_equal. apply IH. intros y Hy. apply Hf. by right.
Qed.

Lemma report_lines (ranks : gmap string Q) :
  report ranks
  = (λ page, RankLine page (rank_at ranks page))
      <$> merge_sort string_le (keys ranks).
Proof.
  unfold report. apply omap_all_Some. intros page Hpage.
  rewrite merge_sort_Permutation in Hpage.
  apply elem_of_keys in Hpage as [v Hv].
  by rewrite Hv, (rank_at_Some _ _ _ Hv).
Qed.

(** The loop of lines 16-17 (and 20-21) prints one line for every page of
    the ranking and no other, each with the rank of its page, in
    non-decreasing order of the page names. *)
Theorem report_sorted (ranks : gmap string Q) :
  ∃ pages : list string,
    report ranks = (λ page, RankLine page (rank_at ranks page)) <$> pages
    ∧ Sorted string_le pages
    ∧ pages ≡ₚ keys ranks
    ∧ NoDup pages.
Proof.
  exists (merge_sort string_le (keys ranks)).
  split; [apply report_lines|]. split; [apply Sorted_merge_sort, _|].
  split; [apply merge_sort_Permutation|].
  rewrite merge_sort_Permutation. apply NoDup_keys.
Qed.

Lemma length_report (ranks : gmap string Q) :
  length (report ranks) = size ranks.
Proof.
  rewrite report_lines, length_fmap, merge_sort_Permutation.
  apply length_keys.
Qed.

Section Main.
Variable listdir : string → result (list string).
Variable read_file : string → string → result string.
Variable findall_href : string → list string.
Variable raw : nat → N.

(** Called with one argument that names a directory [crawl] can read and
    that holds at least one HTML file, the program ends with status 0 and
    nothing on standard error; it prints the sampling header and report,
    then the iteration header and report: two lines plus two per page. *)
Theorem main_success (argv : list string) (directory : string)
    (g : gmap string (gset string)) :
  length argv = 2%nat → argv !! 1%nat = Some directory →
  crawl listdir read_file findall_href directory = Ok g →
  g ≠ ∅ →
  ∃ (passes : nat) (sampled iterated : gmap string Q),
    sample_pagerank raw g DAMPING SAMPLES = Ok sampled
    ∧ ∀ fuel, (passes <= fuel)%nat →
        iterate_pagerank fuel g DAMPING = Some (Ok iterated)
        ∧ ∃ out : outcome,
            main listdir read_file findall_href raw fuel argv = Some out
            ∧ stdout out
              = Text "PageRank Results from Sampling (n = 10000)"
                :: report sampled
                ++ Text "PageRank Results from Iteration"
                   :: report iterated
            ∧ length (stdout out) = (2 + 2 * size g)%nat
            ∧ stderr out = []
            ∧ exit_status out = 0%Z.
Proof.
  intros Hargv Hdir Hg Hne.
  pose proof (crawl_corpus_graph read_file findall_href listdir directory g Hg)
    as Hgraph.
  assert (0 <= DAMPING <= 1) as Hd by (unfold DAMPING; lra).
  destruct (sample_pagerank_ok raw g DAMPING SAMPLES Hgraph Hne Hd)
    as (sampled & Hsampled & Hdoms); [done|].
  destruct (iterate_pagerank_contracts g DAMPING)
    as (passes & iterated & Hiterated).
  { by apply size_nonzero_of_nonempty. }
  { unfold DAMPING. by vm_compute. }
  assert (dom iterated = dom g) as Hdomi.
  { apply (iterate_pagerank_invariant g DAMPING (λ r, dom r = dom g))
      with (fuel := passes); [done| |apply dom_uniform|done].
    intros r nr _ Hnr. by apply dom_relaxed. }
  exists passes, sampled, iterated. split; [done|]. intros fuel Hfuel.
  pose proof (iterate_pagerank_more_fuel g DAMPING passes fuel _ Hfuel
                Hiterated) as Hrun.
  split; [done|]. unfold main.
  rewrite decide_False by (intros ?; done).
  rewrite Hdir, Hg, Hsampled, Hrun.
  eexists. split; [done|]. cbn [stdout stderr exit_status].
  split; [done|]. split; [|done].
  cbn [length]. rewrite length_app. cbn [length].
  rewrite !length_report.
  rewrite <- (size_dom sampled), <- (size_dom iterated), Hdoms, Hdomi.
  rewrite size_dom. lia.
Qed.

(** Called with one argument that names a directory without any file whose
    name ends in [".html"], the program prints nothing and ends on the
    uncaught [IndexError] of line 90, with status 1. *)
Theorem main_no_pages (fuel : nat) (argv : list string)
    (directory : string) (names : list string) :
  length argv = 2%nat → argv !! 1%nat = Some directory →
  listdir directory = Ok names →
  (∀ f, f ∈ names → endswith f ".html" = false) →
  main listdir read_file findall_href raw fuel argv
  = Some (crash [] IndexError).
Proof.
  intros Hargv Hdir Hnames Hnone.
  destruct (proj2 (crawl_returns_when read_file findall_href listdir
                     directory)) as [g Hg].
  { exists names. split; [done|]. intros f Hf Hhtml.
    rewrite (Hnone f Hf) in Hhtml. done. }
  assert (g = ∅) as ->.
  { destruct (crawl_char read_file findall_href listdir directory g Hg)
      as (names0 & Hnames0 & Hkeys & _).
    rewrite Hnames in Hnames0. injection Hnames0 as <-.
    apply dom_empty_iff_L, set_eq. intros f. rewrite Hkeys.
    split; [|by intros ?%not_elem_of_empty].
    intros [Hf Hhtml]. rewrite (Hnone f Hf) in Hhtml. done. }
  unfold main. rewrite decide_False by (intros ?; done).
  by rewrite Hdir, Hg.
Qed.
End Main.

(** ** [iterate_pagerank]: links that leave the corpus *)

(** Without the closure of the corpus a pass can only lose mass. *)
Lemma relax_mass_le (corpus : gmap string (gset string)) (d : Q)
    (x : string → Q) :
  size corpus ≠ O → 0 <= d →
  (∀ q, q ∈ dom corpus → 0 <= x q) →
  Qsum (relax corpus d x <$> keys corpus)
  <= (1 - d) + d * Qsum (x <$> keys corpus).
Proof.
  intros HN Hd Hx. pose proof (Qnat_pos _ HN) as HNpos.
  unfold relax.
  rewrite (Qsum_plus (λ _, (1 - d) / Qnat (size corpus))
                     (λ p, d * total_of corpus (size corpus) x p)).
  rewrite Qsum_const, length_keys, Qsum_scale.
  rewrite (Qsum_ext (total_of corpus (size corpus) x) _ _
             (λ p _, total_of_weight corpus x p)).
  rewrite sum_totals.
  assert (Qsum ((λ item : string * gset string,
                   Qsum ((λ p, weight (size corpus) p item.2) <$> keys corpus)
                   * x item.1) <$> map_to_list corpus)
          <= Qsum (x <$> keys corpus)) as Hle.
  { rewrite <- (sum_items_keys corpus x).
    apply Qsum_le. intros [q links] Hitem%elem_of_map_to_list. cbn [fst snd].
    destruct (column_sum corpus HN links) as [[_ Hone] _].
    assert (0 <= x q) as Hq by (apply Hx, elem_of_dom; eauto).
    revert Hone Hq.
    generalize (Qsum ((λ p, weight (size corpus) p links) <$> keys corpus))
      as c.
    generalize (x q) as a. intros a c Hone Hq. nra. }
  assert (Qnat (size corpus) * ((1 - d) / Qnat (size corpus)) == 1 - d)
    as -> by (field; lra).
  apply Qplus_le_r. by apply Qmult_le_l_nonneg.
Qed.

(** On any corpus with at least one page, also one whose links leave the
    corpus, and for a damping factor in [0,1], the ranks [iterate_pagerank]
    returns are non-negative and sum to at most 1. *)
Theorem iterate_pagerank_open_corpus (corpus : gmap string (gset string))
    (d : Q) (fuel : nat) (result : gmap string Q) :
  corpus ≠ ∅ → 0 <= d <= 1 →
  iterate_pagerank fuel corpus d = Some (Ok result) →
  dom result = dom corpus
  ∧ (∀ p v, result !! p = Some v → 0 <= v)
  ∧ mass result <= 1.
Proof.
  intros Hne Hd Hrun.
  pose proof (size_nonzero_of_nonempty corpus Hne) as HN.
  apply (iterate_pagerank_invariant corpus d
           (λ r, dom r = dom corpus
                 ∧ (∀ p, p ∈ dom corpus → 0 <= rank_at r p)
                 ∧ mass r <= 1))
    in Hrun as (Hdom & Hpos & Hmass).
  - split; [done|]. split; [|done]. intros p v Hv.
    rewrite <- (rank_at_Some _ _ _ Hv). apply Hpos.
    rewrite <- Hdom. apply elem_of_dom. eauto.
  - tauto.
  - intros r nr (Hdom & Hpos & Hmass) Hnr.
    pose proof (dom_relaxed corpus d r nr Hnr) as Hdom'.
    split; [done|]. split.
    + intros p Hp. rewrite rank_at_relaxed by done. by apply relax_nonneg.
    + rewrite (mass_keys _ corpus) by done.
      rewrite (Qsum_ext _ (relax corpus d (rank_at r)))
        by (intros p Hp%elem_of_keys_dom; by rewrite rank_at_relaxed).
      eapply Qle_trans; [apply relax_mass_le; (done || lra)|].
      rewrite <- (mass_keys r corpus) by done.
      destruct Hd as [Hd0 Hd1]. revert Hmass. generalize (mass r) as m.
      intros m Hm. nra.
  - split; [apply dom_uniform|]. split.
    + intros p Hp. rewrite rank_at_uniform by done. apply Qinv_Qnat_nonneg.
    + rewrite mass_uniform by done. lra.
Qed.

(** ** [sample_pagerank]: the surfer only moves where the transition model
    allows *)

Lemma consecutive_accumulate_from (ws : list Q) :
  ∀ (acc : Q) (i : nat) (a b : Q),
    (acc :: accumulate_from acc ws) !! i = Some a →
    (acc :: accumulate_from acc ws) !! S i = Some b →
    ∃ w, ws !! i = Some w ∧ b = a + w.
Proof.
  induction ws as [|w ws IH]; intros acc i a b Ha Hb.
  - destruct i; simpl in Hb; done.
  - destruct i as [|i].
    + simpl in Ha, Hb. injection Ha as <-. injection Hb as <-.
      exists w. by split.
    + cbn [accumulate_from] in Ha, Hb.
      rewrite lookup_cons_ne_0 in Ha by done.
      rewrite lookup_cons_ne_0 in Hb by done.
      cbn [pred] in Ha, Hb.
      destruct (IH (acc + w) i a b Ha Hb) as (w' & Hw' & Hab).
      exists w'. by split.
Qed.

(** Two neighbours among the running sums differ by the weight at the
    second index. *)
Lemma consecutive_accumulate (ws : list Q) (i : nat) (a b : Q) :
  accumulate ws !! i = Some a → accumulate ws !! S i = Some b →
  ∃ w, ws !! S i = Some w ∧ b = a + w.
Proof.
  destruct ws as [|w0 ws]; [done|]. cbn [accumulate].
  intros Ha Hb.
  destruct (consecutive_accumulate_from ws w0 i a b Ha Hb) as (w & Hw & Hab).
  exists w. by split.
Qed.

Lemma head_accumulate (ws : list Q) : accumulate ws !! O = ws !! O.
Proof. by destruct ws. Qed.

(** With weights that are not negative the running sums do not decrease. *)
Lemma accumulate_monotone (ws : list Q) :
  (∀ w, w ∈ ws → 0 <= w) →
  ∀ (gap i : nat) (a b : Q),
    accumulate ws !! i = Some a → accumulate ws !! (i + gap)%nat = Some b →
    a <= b.
Proof.
  intros Hpos gap. induction gap as [|gap IH]; intros i a b Ha Hb.
  - rewrite Nat.add_0_r in Hb. rewrite Ha in Hb. injection Hb as <-.
    apply Qle_refl.
  - replace (i + S gap)%nat with (S (i + gap)) in Hb by lia.
    destruct (lookup_lt_is_Some_2 (accumulate ws) (i + gap)) as [c Hc].
    { apply lookup_lt_Some in Hb. lia. }
    destruct (consecutive_accumulate ws (i + gap) c b Hc Hb)
      as (w & Hw & ->).
    assert (0 <= w) by (eapply Hpos, list_elem_of_lookup_2, Hw).
    pose proof (IH i a c Ha Hc). lra.
Qed.

(** The binary search on a list that does not decrease: everything before
    the index it returns is at most [x], everything from that index up to
    the first upper bound is above [x]. *)
Lemma bisect_loop_spec (a : list Q) (x : Q) (bound : nat) :
  (∀ i j ai aj, (i <= j)%nat → a !! i = Some ai → a !! j = Some aj →
     ai <= aj) →
  ∀ (fuel lo hi : nat),
    (hi - lo <= fuel)%nat → (lo <= hi)%nat → (hi <= bound)%nat →
    (hi <= length a)%nat →
    (∀ j aj, (j < lo)%nat → a !! j = Some aj → aj <= x) →
    (∀ j aj, (hi <= j < bound)%nat → a !! j = Some aj → x < aj) →
    ∀ i, bisect_loop fuel a x lo hi = Ok i →
      (i <= bound)%nat
      ∧ (∀ j aj, (j < i)%nat → a !! j = Some aj → aj <= x)
      ∧ (∀ j aj, (i <= j < bound)%nat → a !! j = Some aj → x < aj).
Proof.
  intros Hsorted fuel.
  induction fuel as [|fuel IH]; intros lo hi Hfuel Hlo Hhi Hlen Hbelow Habove i;
    cbn [bisect_loop].
  - intros [= <-]. split; [lia|]. split; [done|].
    intros j aj Hj. apply Habove. lia.
  - destruct (lo <? hi)%nat eqn:Hlt.
    + apply Nat.ltb_lt in Hlt.
      assert (lo <= (lo + hi) / 2)%nat
        by (apply Nat.div_le_lower_bound; lia).
      assert ((lo + hi) / 2 < hi)%nat
        by (apply Nat.Div0.div_lt_upper_bound; lia).
      destruct (a !! ((lo + hi) / 2)%nat) as [am|] eqn:Ham; [|done].
      destruct (Qlt_le_dec x am) as [Hx|Hx].
      * apply IH; try lia; [done|].
        intros j aj Hj Haj.
        destruct (decide (hi <= j)%nat); [apply (Habove j); [lia|done]|].
        eapply Qlt_le_trans; [exact Hx|].
        apply (Hsorted ((lo + hi) / 2)%nat j); [lia|done..].
      * apply IH; try lia; [|done].
        intros j aj Hj Haj.
        eapply Qle_trans; [|exact Hx].
        apply (Hsorted j ((lo + hi) / 2)%nat); [lia|done..].
    + apply Nat.ltb_ge in Hlt. intros [= <-]. split; [lia|]. split; [done|].
      intros j aj Hj. apply Habove. lia.
Qed.

Section Support.
Variable raw : nat → N.

(** [random.random()] lies in [0, 1). *)
Lemma random_range (k : nat) : 0 <= random raw k < 1.
Proof.
  unfold random.
  assert (0 <= Z.of_N (raw k mod 2 ^ 53) < 2 ^ 53)%Z as [Hlo Hhi].
  { assert (raw k mod 2 ^ 53 < 2 ^ 53)%N as Hmod by (by apply N.mod_lt).
    apply N2Z.inj_lt in Hmod. split; [apply N2Z.is_nonneg|exact Hmod]. }
  assert (0 < inject_Z (2 ^ 53)) as Hden by (by vm_compute).
  split.
  - apply Qdiv_nonneg; [|done]. change 0 with (inject_Z 0).
    by rewrite <- Zle_Qle.
  - apply Qlt_shift_div_r; [done|]. rewrite Qmult_1_l. by rewrite <- Zlt_Qlt.
Qed.

(** [random.choices] never returns an element whose weight is zero. *)
Lemma choices_positive (k : nat) (population : list string)
    (weights : list Q) (x : string) :
  (∀ w, w ∈ weights → 0 <= w) →
  choices raw k population weights = Ok x →
  ∃ (i : nat) (w : Q),
    population !! i = Some x ∧ weights !! i = Some w ∧ 0 < w.
Proof.
  intros Hpos. unfold choices.
  destruct (length (accumulate weights) =? length population)%nat eqn:Hlen;
    cbn [negb]; [|done].
  apply Nat.eqb_eq in Hlen. rewrite length_accumulate in Hlen.
  destruct (last (accumulate weights)) as [total|] eqn:Hlast; [|done].
  destruct (Qle_bool total 0) eqn:Htotal; [done|].
  assert (0 < total) as Htotal'.
  { destruct (Qlt_le_dec 0 total) as [|Hle]; [done|].
    apply Qle_bool_iff in Hle. congruence. }
  rewrite last_lookup, length_accumulate in Hlast.
  set (X := random raw k * total).
  assert (0 <= X < total) as [HX0 HX1].
  { destruct (random_range k) as [H0 H1]. unfold X. split.
    - by apply Qmult_le_0_compat; [|apply Qlt_le_weak].
    - rewrite <- (Qmult_1_l total) at 2. by apply Qmult_lt_r. }
  destruct (bisect (accumulate weights) X 0 (length population - 1))
    as [i|e] eqn:Hbisect; cbn [bind]; [|done].
  destruct (population !! i) as [y|] eqn:Hy; [|done]. intros [= ->].
  unfold bisect in Hbisect.
  apply (bisect_loop_spec (accumulate weights) X (length population - 1))
    in Hbisect as (Hi & Hbelow & Habove);
    [| |lia|lia|lia|rewrite length_accumulate; lia|intros; lia|intros; lia].
  2:{ intros i0 j ai aj Hij Hai Haj.
      apply (accumulate_monotone weights Hpos (j - i0) i0); [done|].
      by replace (i0 + (j - i0))%nat with j by lia. }
  assert (i < length weights)%nat as Hiw.
  { apply lookup_lt_Some in Hy. lia. }
  destruct (lookup_lt_is_Some_2 (accumulate weights) i) as [ci Hci].
  { by rewrite length_accumulate. }
  assert (X < ci) as Hci'.
  { destruct (decide (i < length population - 1)%nat) as [Hlt|Hge].
    - apply (Habove i); [lia|done].
    - replace (pred (length weights)) with i in Hlast by lia.
      rewrite Hlast in Hci. by injection Hci as <-. }
  destruct i as [|i].
  - rewrite head_accumulate in Hci. exists O, ci.
    split; [done|]. split; [done|]. lra.
  - destruct (lookup_lt_is_Some_2 (accumulate weights) i) as [c Hc].
    { rewrite length_accumulate. lia. }
    destruct (consecutive_accumulate weights i c ci Hc Hci) as (w & Hw & ->).
    exists (S i), w. split; [done|]. split; [done|].
    assert (c <= X) by (apply (Hbelow i); [lia|done]). lra.
Qed.

(** Drawn from a distribution, the next page has a positive entry. *)
Lemma choices_model_positive (k : nat) (model : gmap string Q)
    (next : string) :
  (∀ p v, model !! p = Some v → 0 <= v) →
  choices raw k (keys model) (map_to_list model).*2 = Ok next →
  ∃ v, model !! next = Some v ∧ 0 < v.
Proof.
  intros Hpos Hnext.
  apply choices_positive in Hnext as (i & w & Hi & Hw & Hwpos).
  - exists w. split; [|done]. unfold keys in Hi.
    rewrite list_lookup_fmap in Hi. rewrite list_lookup_fmap in Hw.
    destruct (map_to_list model !! i) as [[p v]|] eqn:Hitem; [|done].
    cbn in Hi, Hw. injection Hi as ->. injection Hw as ->.
    apply list_elem_of_lookup_2 in Hitem. by apply elem_of_map_to_list.
  - intros w ([p v] & -> & Hin%elem_of_map_to_list)%list_elem_of_fmap.
    by apply (Hpos p).
Qed.
End Support.

Section Walk.
Variable raw : nat → N.
Variable corpus : gmap string (gset string).
Variable d : Q.
Hypothesis corpus_is_graph : corpus_graph corpus.
Hypothesis damping_range : 0 <= d <= 1.

Lemma transition_model_entries (page : string) (model : gmap string Q) :
  page ∈ dom corpus →
  transition_model corpus page d = Ok model →
  dom model = dom corpus ∧ ∀ p v, model !! p = Some v → 0 <= v.
Proof.
  intros [links Hlinks]%elem_of_dom Hmodel.
  destruct (corpus_is_graph page links Hlinks) as [_ Hsub].
  destruct (transition_model_spec corpus page links d Hsub Hlinks
              damping_range) as (model' & Hmodel' & Hdom & Hentries & _).
  rewrite Hmodel in Hmodel'. injection Hmodel' as <-.
  split; [done|]. intros p v Hv.
  destruct (Hentries p) as (v' & Hv' & Hpos & _).
  { rewrite <- Hdom. apply elem_of_dom. eauto. }
  congruence.
Qed.

Lemma walk_from_support (turns : list nat) :
  ∀ (page : string) (rest : list string),
    page ∈ dom corpus →
    walk_from raw corpus d page turns = Ok rest →
    ∀ i p q,
      (page :: rest) !! i = Some p → (page :: rest) !! S i = Some q →
      ∃ model v,
        transition_model corpus p d = Ok model
        ∧ model !! q = Some v ∧ 0 < v.
Proof.
  induction turns as [|k turns IH]; intros page rest Hpage.
  - intros [= <-] i p q _ Hq. destruct i; done.
  - cbn [walk_from].
    destruct (transition_model corpus page d) as [model|e] eqn:Hmodel;
      cbn [bind]; [|done].
    destruct (choices raw k (keys model) (map_to_list model).*2)
      as [next|e] eqn:Hnext; cbn [bind]; [|done].
    destruct (walk_from raw corpus d next turns) as [rest'|e] eqn:Hrest;
      cbn [bind]; [|done].
    intros [= <-] i p q Hp Hq.
    destruct (transition_model_entries page model Hpage Hmodel)
      as [Hdom Hpos].
    destruct (choices_model_positive raw k model next Hpos Hnext)
      as (v & Hv & Hvpos).
    destruct i as [|i].
    + cbn in Hp, Hq. injection Hp as <-. injection Hq as <-.
      exists model, v. by split.
    + apply (IH next rest') with (i := i); [|done..].
      rewrite <- Hdom. apply elem_of_dom. eauto.
Qed.
End Walk.

(** On a corpus graph and for a damping factor in [0,1], every move of the
    walk of [sample_pagerank] goes to a page to which the transition model
    of the page before gives a positive probability. *)
Theorem sample_walk_support (raw : nat → N)
    (corpus : gmap string (gset string)) (d : Q) (n : Z)
    (walk : list string) :
  corpus_graph corpus → 0 <= d <= 1 →
  sample_walk raw corpus d n = Ok walk →
  ∀ i p q, walk !! i = Some p → walk !! S i = Some q →
    ∃ model v,
      transition_model corpus p d = Ok model ∧ model !! q = Some v ∧ 0 < v.
Proof.
  intros Hgraph Hd. unfold sample_walk.
  destruct (choice raw 0 (keys corpus)) as [page|e] eqn:Hchoice;
    cbn [bind]; [|done].
  destruct (walk_from raw corpus d page (seq 1 (Z.to_nat (n - 1))))
    as [rest|e] eqn:Hrest; cbn [bind]; [|done].
  intros [= <-].
  apply (walk_from_support raw corpus d Hgraph Hd
           (seq 1 (Z.to_nat (n - 1))) page rest); [|done].
  destruct (choice_ok raw O (keys corpus)) as (x & Hx & Hin).
  { intros Hnil. rewrite Hnil in Hchoice. done. }
  rewrite Hchoice in Hx. injection Hx as <-. by apply elem_of_keys_dom.
Qed.

(** With the damping factor 1 the surfer only follows links: on a corpus
    graph, after a page that has links the walk of [sample_pagerank] visits
    one of these links. *)
Theorem sample_walk_follows_links (raw : nat → N)
    (corpus : gmap string (gset string)) (n : Z) (walk : list string) :
  corpus_graph corpus →
  sample_walk raw corpus 1 n = Ok walk →
  ∀ i p q links,
    walk !! i = Some p → walk !! S i = Some q →
    corpus !! p = Some links → links ≠ ∅ →
    q ∈ links.
Proof.
  intros Hgraph. unfold sample_walk.
  destruct (choice raw 0 (keys corpus)) as [page|e] eqn:Hchoice;
    cbn [bind]; [|done].
  destruct (walk_from raw corpus 1 page (seq 1 (Z.to_nat (n - 1))))
    as [rest|e] eqn:Hrest; cbn [bind]; [|done].
  intros [= <-] i p q links Hp Hq Hlinks Hne.
  assert (0 <= 1 <= 1) as Hd by lra.
  assert (page ∈ dom corpus) as Hpage.
  { destruct (choice_ok raw O (keys corpus)) as (x & Hx & Hin).
    { intros Hnil. rewrite Hnil in Hchoice. done. }
    rewrite Hchoice in Hx. injection Hx as <-. by apply elem_of_keys_dom. }
  destruct (walk_from_support raw corpus 1 Hgraph Hd
              (seq 1 (Z.to_nat (n - 1))) page rest Hpage Hrest
              i p q Hp Hq) as (model & v & Hmodel & Hv & Hvpos).
  destruct (Hgraph p links Hlinks) as [_ Hsub].
  destruct (transition_model_spec corpus p links 1 Hsub Hlinks Hd)
    as (model' & Hmodel' & Hdom & Hentries & _).
  rewrite Hmodel in Hmodel'. injection Hmodel' as <-.
  destruct (Hentries q) as (v' & Hv' & _ & Hvalue).
  { rewrite <- Hdom. apply elem_of_dom. eauto. }
  rewrite Hv in Hv'. injection Hv' as <-.
  rewrite decide_False in Hvalue by done.
  destruct (decide (q ∈ links)) as [|Hout]; [done|]. exfalso.
  assert (v == 0); [|lra]. rewrite Hvalue. unfold Qdiv. ring.
Qed.

(** ** The further properties at concrete inputs *)

(** The graph of the demonstration directory, by evaluation. *)
Lemma demo_crawl :
  crawl demo_listdir demo_read_file demo_findall_href "corpus" = Ok demo_graph.
Proof. vm_compute. exact eq_refl. Qed.

Lemma transition_model_link_outside_witness :
  leaky !! "A"%string = Some {[ "B"%string; "Z"%string ]}
  ∧ ¬ ({[ "B"%string; "Z"%string ]} : gset string) ⊆ dom leaky
  ∧ ∃ link,
      link ∈ ({[ "B"%string; "Z"%string ]} : gset string)
      ∧ (link ∉ dom leaky)
      ∧ transition_model leaky "A" DAMPING = Raise (KeyError link).
Proof.
  assert (leaky !! "A"%string = Some {[ "B"%string; "Z"%string ]}) as Hpage
    by (vm_compute; reflexivity).
  assert (¬ ({[ "B"%string; "Z"%string ]} : gset string) ⊆ dom leaky)
    as Hout by by_computation.
  split; [exact Hpage|]. split; [exact Hout|].
  exact (transition_model_link_outside leaky "A" _ DAMPING Hpage Hout).
Defined.

Lemma iterate_pagerank_residual_witness :
  hub ≠ ∅
  ∧ ∃ result,
      iterate_pagerank 8 hub (1 # 2) = Some (Ok result)
      ∧ distance hub (rank_at result) (relax hub (1 # 2) (rank_at result))
        <= Qabs (1 # 2) * (Qnat (size hub) * tolerance).
Proof.
  assert (hub ≠ ∅) as Hne by by_computation.
  assert (∃ result, iterate_pagerank 8 hub (1 # 2) = Some (Ok result))
    as [result Hrun] by (eexists; vm_compute; reflexivity).
  split; [exact Hne|]. exists result. split; [exact Hrun|].
  exact (iterate_pagerank_residual hub (1 # 2) 8 result Hne Hrun).
Defined.

Lemma iterate_pagerank_uniform_stationary_witness :
  two_cycle ≠ ∅
  ∧ (∀ p, p ∈ dom two_cycle →
       Qsum ((λ item : string * gset string,
                weight (size two_cycle) p item.2)
               <$> map_to_list two_cycle) == 1)
  ∧ ∃ result : gmap string Q,
      (∀ fuel, (1 <= fuel)%nat →
         iterate_pagerank fuel two_cycle DAMPING = Some (Ok result))
      ∧ ∀ page, page ∈ dom two_cycle →
          ∃ v, result !! page = Some v ∧ v == 1 / Qnat (size two_cycle).
Proof.
  assert (two_cycle ≠ ∅) as Hne by by_computation.
  assert (∀ p, p ∈ dom two_cycle →
            Qsum ((λ item : string * gset string,
                     weight (size two_cycle) p item.2)
                    <$> map_to_list two_cycle) == 1) as Hin.
  { intros p Hp%elem_of_keys_dom.
    assert (keys two_cycle = ["A"; "B"]%string) as Hkeys
      by (vm_compute; reflexivity).
    rewrite Hkeys in Hp.
    apply elem_of_cons in Hp as [->|Hp]; [by vm_compute|].
    apply elem_of_cons in Hp as [->|Hp]; [by vm_compute|].
    by apply elem_of_nil in Hp. }
  split; [exact Hne|]. split; [exact Hin|].
  exact (iterate_pagerank_uniform_stationary two_cycle DAMPING Hne Hin).
Defined.

Lemma iterate_pagerank_bounds_witness :
  corpus_graph hub ∧ hub ≠ ∅ ∧ 0 <= 1 # 2 <= 1
  ∧ ∃ result,
      iterate_pagerank 8 hub (1 # 2) = Some (Ok result)
      ∧ ∀ p v, result !! p = Some v →
          (1 - (1 # 2)) / Qnat (size hub) <= v <= 1.
Proof.
  assert (corpus_graph hub) as Hgraph by by_computation.
  assert (hub ≠ ∅) as Hne by by_computation.
  assert (0 <= 1 # 2 <= 1) as Hd by lra.
  assert (∃ result, iterate_pagerank 8 hub (1 # 2) = Some (Ok result))
    as [result Hrun] by (eexists; vm_compute; reflexivity).
  split; [exact Hgraph|]. split; [exact Hne|]. split; [exact Hd|].
  exists result. split; [exact Hrun|].
  exact (iterate_pagerank_bounds hub (1 # 2) 8 result Hgraph Hne Hd Hrun).
Defined.

Lemma iterate_pagerank_open_corpus_witness :
  leaky ≠ ∅ ∧ 0 <= 1 # 2 <= 1
  ∧ ∃ result,
      iterate_pagerank 6 leaky (1 # 2) = Some (Ok result)
      ∧ dom result = dom leaky
      ∧ (∀ p v, result !! p = Some v → 0 <= v)
      ∧ mass result <= 1.
Proof.
  assert (leaky ≠ ∅) as Hne by by_computation.
  assert (0 <= 1 # 2 <= 1) as Hd by lra.
  assert (∃ result, iterate_pagerank 6 leaky (1 # 2) = Some (Ok result))
    as [result Hrun] by (eexists; vm_compute; reflexivity).
  split; [exact Hne|]. split; [exact Hd|].
  exists result. split; [exact Hrun|].
  exact (iterate_pagerank_open_corpus leaky (1 # 2) 6 result Hne Hd Hrun).
Defined.

Lemma sample_pagerank_zero_samples_witness :
  hub ≠ ∅ ∧ sample_pagerank demo_raw hub DAMPING 0 = Raise ZeroDivisionError.
Proof.
  assert (hub ≠ ∅) as Hne by by_computation.
  split; [exact Hne|].
  exact (sample_pagerank_zero_samples demo_raw hub DAMPING Hne).
Defined.

Lemma sample_pagerank_no_move_witness :
  hub ≠ ∅ ∧ (-3 <= 1)%Z ∧ (-3)%Z ≠ 0%Z
  ∧ ∃ (start : string) (result : gmap string Q),
      choice demo_raw 0 (keys hub) = Ok start
      ∧ start ∈ dom hub
      ∧ sample_pagerank demo_raw hub DAMPING (-3) = Ok result
      ∧ dom result = dom hub
      ∧ ∀ p, p ∈ dom hub →
          ∃ v, result !! p = Some v
               ∧ v == (if decide (p = start) then 1 / inject_Z (-3) else 0).
Proof.
  assert (hub ≠ ∅) as Hne by by_computation.
  assert (-3 <= 1)%Z as Hn1 by lia.
  assert ((-3)%Z ≠ 0%Z) as Hn0 by lia.
  split; [exact Hne|]. split; [exact Hn1|]. split; [exact Hn0|].
  exact (sample_pagerank_no_move demo_raw hub DAMPING (-3) Hne Hn1 Hn0).
Defined.

Lemma crawl_keys_witness :
  crawl demo_listdir demo_read_file demo_findall_href "corpus" = Ok demo_graph
  ∧ ∃ names,
      demo_listdir "corpus" = Ok names
      ∧ ∀ f, f ∈ dom demo_graph ↔ f ∈ names ∧ endswith f ".html" = true.
Proof.
  pose proof demo_crawl as Hcrawl.
  split; [exact Hcrawl|].
  exact (crawl_keys demo_read_file demo_findall_href demo_listdir
           "corpus" demo_graph Hcrawl).
Defined.

Lemma crawl_links_witness :
  crawl demo_listdir demo_read_file demo_findall_href "corpus" = Ok demo_graph
  ∧ demo_graph !! "1.html"%string = Some {[ "2.html"%string ]}
  ∧ ∃ contents,
      demo_read_file "corpus" "1.html" = Ok contents
      ∧ ∀ link, link ∈ ({[ "2.html"%string ]} : gset string) ↔
          link ∈ demo_findall_href contents
          ∧ link ≠ "1.html"%string ∧ link ∈ dom demo_graph.
Proof.
  pose proof demo_crawl as Hcrawl.
  assert (demo_graph !! "1.html"%string = Some {[ "2.html"%string ]})
    as Hpage by (vm_compute; reflexivity).
  split; [exact Hcrawl|]. split; [exact Hpage|].
  exact (crawl_links demo_read_file demo_findall_href demo_listdir
           "corpus" demo_graph "1.html" _ Hcrawl Hpage).
Defined.

Lemma crawl_listing_order_witness :
  demo_listdir "corpus" = Ok ["1.html"; "2.html"; "notes.txt"]%string
  ∧ demo_listdir_shuffled "corpus"
    = Ok ["notes.txt"; "2.html"; "1.html"; "2.html"]%string
  ∧ (∀ f, f ∈ ["1.html"; "2.html"; "notes.txt"]%string
          ↔ f ∈ ["notes.txt"; "2.html"; "1.html"; "2.html"]%string)
  ∧ crawl demo_listdir demo_read_file demo_findall_href "corpus"
    = Ok demo_graph
  ∧ crawl demo_listdir_shuffled demo_read_file demo_findall_href "corpus"
    = Ok demo_graph.
Proof.
  assert (demo_listdir "corpus" = Ok ["1.html"; "2.html"; "notes.txt"]%string)
    as Hnames by reflexivity.
  assert (demo_listdir_shuffled "corpus"
          = Ok ["notes.txt"; "2.html"; "1.html"; "2.html"]%string)
    as Hnames' by reflexivity.
  assert (∀ f, f ∈ ["1.html"; "2.html"; "notes.txt"]%string
               ↔ f ∈ ["notes.txt"; "2.html"; "1.html"; "2.html"]%string)
    as Hsame by (intros f; rewrite !elem_of_cons, !elem_of_nil; tauto).
  pose proof demo_crawl as Hcrawl.
  split; [exact Hnames|]. split; [exact Hnames'|]. split; [exact Hsame|].
  split; [exact Hcrawl|].
  exact (crawl_listing_order demo_read_file demo_findall_href
           demo_listdir demo_listdir_shuffled "corpus" _ _ demo_graph
           Hnames Hnames' Hsame Hcrawl).
Defined.

Lemma crawl_transition_model_witness :
  crawl demo_listdir demo_read_file demo_findall_href "corpus" = Ok demo_graph
  ∧ "1.html"%string ∈ dom demo_graph
  ∧ 0 <= DAMPING <= 1
  ∧ ∃ pd : gmap string Q,
      transition_model demo_graph "1.html" DAMPING = Ok pd
      ∧ dom pd = dom demo_graph ∧ mass pd == 1.
Proof.
  pose proof demo_crawl as Hcrawl.
  assert ("1.html"%string ∈ dom demo_graph) as Hpage by by_computation.
  assert (0 <= DAMPING <= 1) as Hd by (unfold DAMPING; lra).
  split; [exact Hcrawl|]. split; [exact Hpage|]. split; [exact Hd|].
  exact (crawl_transition_model demo_read_file demo_findall_href
           demo_listdir "corpus" demo_graph "1.html" DAMPING
           Hcrawl Hpage Hd).
Defined.

Lemma main_success_witness :
  length ["pagerank.py"; "corpus"]%string = 2%nat
  ∧ ["pagerank.py"; "corpus"]%string !! 1%nat = Some "corpus"%string
  ∧ crawl demo_listdir demo_read_file demo_findall_href "corpus"
    = Ok demo_graph
  ∧ demo_graph ≠ ∅
  ∧ ∃ (passes : nat) (sampled iterated : gmap string Q),
      sample_pagerank demo_raw demo_graph DAMPING SAMPLES = Ok sampled
      ∧ ∀ fuel, (passes <= fuel)%nat →
          iterate_pagerank fuel demo_graph DAMPING = Some (Ok iterated)
          ∧ ∃ out : outcome,
              main demo_listdir demo_read_file demo_findall_href demo_raw
                   fuel ["pagerank.py"; "corpus"]%string = Some out
              ∧ stdout out
                = Text "PageRank Results from Sampling (n = 10000)"
                  :: report sampled
                  ++ Text "PageRank Results from Iteration"
                     :: report iterated
              ∧ length (stdout out) = (2 + 2 * size demo_graph)%nat
              ∧ stderr out = []
              ∧ exit_status out = 0%Z.
Proof.
  assert (length ["pagerank.py"; "corpus"]%string = 2%nat) as Hargv
    by reflexivity.
  assert (["pagerank.py"; "corpus"]%string !! 1%nat = Some "corpus"%string)
    as Hdir by reflexivity.
  pose proof demo_crawl as Hcrawl.
  assert (demo_graph ≠ ∅) as Hne by by_computation.
  split; [exact Hargv|]. split; [exact Hdir|]. split; [exact Hcrawl|].
  split; [exact Hne|].
  exact (main_success demo_listdir demo_read_file demo_findall_href demo_raw
           _ "corpus" demo_graph Hargv Hdir Hcrawl Hne).
Defined.

Lemma main_no_pages_witness :
  length ["pagerank.py"; "corpus"]%string = 2%nat
  ∧ ["pagerank.py"; "corpus"]%string !! 1%nat = Some "corpus"%string
  ∧ demo_listdir_notes "corpus" = Ok ["notes.txt"; "index.htm"]%string
  ∧ (∀ f, f ∈ ["notes.txt"; "index.htm"]%string →
          endswith f ".html" = false)
  ∧ main demo_listdir_notes demo_read_file demo_findall_href demo_raw 5
         ["pagerank.py"; "corpus"]%string
    = Some (crash [] IndexError).
Proof.
  assert (length ["pagerank.py"; "corpus"]%string = 2%nat) as Hargv
    by reflexivity.
  assert (["pagerank.py"; "corpus"]%string !! 1%nat = Some "corpus"%string)
    as Hdir by reflexivity.
  assert (demo_listdir_notes "corpus" = Ok ["notes.txt"; "index.htm"]%string)
    as Hnames by reflexivity.
  assert (∀ f, f ∈ ["notes.txt"; "index.htm"]%string →
               endswith f ".html" = false) as Hnone.
  { intros f Hf.
    apply elem_of_cons in Hf as [->|Hf]; [reflexivity|].
    apply elem_of_cons in Hf as [->|Hf]; [reflexivity|].
    by apply elem_of_nil in Hf. }
  split; [exact Hargv|]. split; [exact Hdir|]. split; [exact Hnames|].
  split; [exact Hnone|].
  exact (main_no_pages demo_listdir_notes demo_read_file demo_findall_href
           demo_raw 5 _ "corpus" _ Hargv Hdir Hnames Hnone).
Defined.

Lemma sample_walk_support_witness :
  corpus_graph hub ∧ 0 <= DAMPING <= 1
  ∧ ∃ walk,
      sample_walk demo_raw hub DAMPING 20 = Ok walk
      ∧ ∀ i p q, walk !! i = Some p → walk !! S i = Some q →
          ∃ model v,
            transition_model hub p DAMPING = Ok model
            ∧ model !! q = Some v ∧ 0 < v.
Proof.
  assert (corpus_graph hub) as Hgraph by by_computation.
  assert (0 <= DAMPING <= 1) as Hd by (unfold DAMPING; lra).
  assert (∃ walk, sample_walk demo_raw hub DAMPING 20 = Ok walk)
    as [walk Hwalk] by (eexists; vm_compute; reflexivity).
  split; [exact Hgraph|]. split; [exact Hd|].
  exists walk. split; [exact Hwalk|].
  exact (sample_walk_support demo_raw hub DAMPING 20 walk Hgraph Hd Hwalk).
Defined.

Lemma sample_walk_follows_links_witness :
  corpus_graph hub
  ∧ ∃ walk,
      sample_walk demo_raw hub 1 20 = Ok walk
      ∧ ∀ i p q links,
          walk !! i = Some p → walk !! S i = Some q →
          hub !! p = Some links → links ≠ ∅ → q ∈ links.
Proof.
  assert (corpus_graph hub) as Hgraph by by_computation.
  assert (∃ walk, sample_walk demo_raw hub 1 20 = Ok walk)
    as [walk Hwalk] by (eexists; vm_compute; reflexivity).
  split; [exact Hgraph|]. exists walk. split; [exact Hwalk|].
  exact (sample_walk_follows_links demo_raw hub 20 walk Hgraph Hwalk).
Defined.
